(** * jclem/config: deep merge, environment resolver and loader

    A shallow embedding of [src/lib/config.ts] (and of the environment
    resolver of the later revision of the same file).

    Data.  A JavaScript value is a [value]; a plain object is a [record], an
    association list in insertion order, the order [for ... in] walks it.
    JavaScript keeps the keys of an object distinct; [wfR] says so and the
    theorems that need it assume it.  [None] from [lookup] is JavaScript's
    [undefined] for a missing property.  Keys are ordinary own properties:
    names found on [Object.prototype] and integer-like keys (which
    [for ... in] visits first) are outside the model.  Numbers are opaque to
    the code, they are integers here.  Strings are ASCII.

    Effects.  A call that can throw returns a [result]; the environment and
    the file system are read-only functions. *)

From Stdlib Require Import List String Ascii Bool Arith Lia ZArith Permutation.
Import ListNotations.
Local Open Scope string_scope.
Local Open Scope list_scope.

Set Implicit Arguments.
Set Warnings "-register-all".


(* ------------------------------------------------------------------------- *)
(** ** Values and records *)

Inductive value : Type :=
| VUndefined
| VNull
| VBool (b : bool)
| VNum (n : Z)
| VStr (s : string)
| VArr (items : list value)
| VRec (fields : list (string * value)).

Abbreviation record := (list (string * value)).

(** [isRecord]: [typeof value === 'object' && value != null &&
    !Array.isArray(value)]. *)
Definition isRecord (v : value) : bool :=
  match v with
  | VRec _ => true
  | _ => false
  end.

(** [o[key]]: the first binding of [key]. *)
Fixpoint lookup (key : string) (o : record) : option value :=
  match o with
  | [] => None
  | (k, v) :: rest => if String.eqb k key then Some v else lookup key rest
  end.

(** [o[key] = v]: an existing property keeps its place, a new one goes last. *)
Fixpoint assign (key : string) (v : value) (o : record) : record :=
  match o with
  | [] => [(key, v)]
  | (k, w) :: rest =>
      if String.eqb k key then (k, v) :: rest else (k, w) :: assign key v rest
  end.

Definition keys (o : record) : list string := map fst o.

(** Nesting depth of the records inside a record; arrays are never entered. *)
Fixpoint height (v : value) : nat :=
  match v with
  | VRec fields => S (list_max (map (fun kv => height (snd kv)) fields))
  | _ => 0
  end.

Definition heightR (o : record) : nat :=
  list_max (map (fun kv => height (snd kv)) o).

(** Distinct keys, as in every JavaScript object. *)
Definition wfR (o : record) : Prop := NoDup (keys o).

(** The value at a path below a value; a path cannot continue through
    anything but a record. *)
Fixpoint getV (v : value) (path : list string) : option value :=
  match path with
  | [] => Some v
  | key :: rest =>
      match v with
      | VRec fields =>
          match lookup key fields with
          | Some w => getV w rest
          | None => None
          end
      | _ => None
      end
  end.

Definition getPath (o : record) (path : list string) : option value :=
  getV (VRec o) path.

(* ------------------------------------------------------------------------- *)
(** ** Deep merge *)

(** The body of the [for (const key in object)] loop of [deepMerge], with the
    recursive call [deepMerge(outputValue, objectValue)] as [self]. *)
Definition mergeKey (self : list record -> record)
    (output : record) (kv : string * value) : record :=
  let (key, objectValue) := kv in
  match lookup key output, objectValue with
  | Some (VRec outputValue), VRec objectFields =>
      assign key (VRec (self [outputValue; objectFields])) output
  | _, _ => assign key objectValue output
  end.

(** The callback of [objects.reduce]. *)
Definition mergeObject (self : list record -> record)
    (output object : record) : record :=
  fold_left (mergeKey self) object output.

(** [objects.reduce(..., {})]. *)
Definition mergeAll (self : list record -> record)
    (objects : list record) : record :=
  fold_left (mergeObject self) objects [].

(** [deepMerge] calls itself on a value taken from the accumulated output,
    which is no sub-term of its argument: the recursion is cut at a depth. *)
Fixpoint deepMergeFuel (fuel : nat) (objects : list record) : record :=
  match fuel with
  | 0 => []
  | S n => mergeAll (deepMergeFuel n) objects
  end.

(** [deepMerge(...objects)].  The depth given is always enough:
    [deepMerge_eq] below is the source's own recursive equation. *)
Definition deepMerge (objects : list record) : record :=
  deepMergeFuel (S (list_max (map heightR objects))) objects.



(* ------------------------------------------------------------------------- *)
(** ** Exceptions and promises *)

(** One violation reported by the validator. *)
Record ZodIssue : Type := {
  code : string;
  issuePath : list string;
  message : string
}.

Inductive error : Type :=
| ENOENT (path : string)
| SyntaxError
| ZodError (issues : list ZodIssue)
| TypeError.

(** A call either returns or throws. *)
Inductive result (A : Type) : Type :=
| Return (a : A)
| Throw (e : error).
Arguments Return {A} a.
Arguments Throw {A} e.

Definition bind {A B : Type} (m : result A) (f : A -> result B) : result B :=
  match m with
  | Return a => f a
  | Throw e => Throw e
  end.

Notation "x <- m ;; f" := (bind m (fun x => f))
  (at level 61, m at next level, right associativity).

(** [xs.map(f)] with a callback that can throw: the first throw ends it. *)
Fixpoint mapM {A B : Type} (f : A -> result B) (xs : list A) : result (list B) :=
  match xs with
  | [] => Return []
  | x :: rest => y <- f x ;; ys <- mapM f rest ;; Return (y :: ys)
  end.

(** What the caller of an asynchronous function sees.  [Uncaught] is an
    exception thrown inside a callback of the event loop, outside every
    promise: nothing settles. *)
Inductive promise (A : Type) : Type :=
| Resolved (a : A)
| Rejected (e : error)
| Uncaught (e : error)
| Pending.
Arguments Resolved {A} a.
Arguments Rejected {A} e.
Arguments Uncaught {A} e.
Arguments Pending {A}.

(** [await p] followed by synchronous code that can throw. *)
Definition await {A B : Type} (p : promise A) (f : A -> result B) : promise B :=
  match p with
  | Resolved a =>
      match f a with
      | Return b => Resolved b
      | Throw e => Rejected e
      end
  | Rejected e => Rejected e
  | Uncaught e => Uncaught e
  | Pending => Pending
  end.

(** [slots[i] = x]. *)
Fixpoint setSlot {A : Type} (i : nat) (x : A) (slots : list A) : list A :=
  match slots, i with
  | [], _ => []
  | _ :: rest, 0 => x :: rest
  | y :: rest, S j => y :: setSlot j x rest
  end.

(** The promises given to [Promise.all] settle in the order [completion]
    (indices into [tasks]).  A fulfilled one stores its value in the slot of
    its own index; the first rejected one rejects the whole. *)
Fixpoint settle {A : Type} (tasks : list (promise A)) (completion : list nat)
    (slots : list (option A)) : promise (list (option A)) :=
  match completion with
  | [] => Resolved slots
  | i :: later =>
      match nth_error tasks i with
      | Some (Resolved a) => settle tasks later (setSlot i (Some a) slots)
      | Some (Rejected e) => Rejected e
      | Some (Uncaught e) => Uncaught e
      | Some Pending | None => settle tasks later slots
      end
  end.

(** The values of the slots, once every slot is filled. *)
Fixpoint filled {A : Type} (slots : list (option A)) : option (list A) :=
  match slots with
  | [] => Some []
  | Some a :: rest =>
      match filled rest with
      | Some l => Some (a :: l)
      | None => None
      end
  | None :: _ => None
  end.

(** The slots hold nothing wrong: slot [i] is empty or holds [rs[i]], the
    value of task [i]. *)
Definition agrees {A : Type} (rs : list A) (slots : list (option A)) : Prop :=
  List.length slots = List.length rs /\
  forall i r, nth_error rs i = Some r ->
    nth_error slots i = Some None \/ nth_error slots i = Some (Some r).

(** [Promise.all(tasks)]: fulfilled with the values in the order of [tasks]
    when all are fulfilled. *)
Definition Promise_all {A : Type} (completion : list nat)
    (tasks : list (promise A)) : promise (list A) :=
  match settle tasks completion (repeat None (List.length tasks)) with
  | Resolved slots =>
      match filled slots with
      | Some values => Resolved values
      | None => Pending
      end
  | Rejected e => Rejected e
  | Uncaught e => Uncaught e
  | Pending => Pending
  end.

(* ------------------------------------------------------------------------- *)
(** ** The schema, as far as the resolver looks at it *)

(** Zod's schema nodes.  Only [ZodObject] has a [shape]; [ZodOptional] and
    [ZodEffects] ([z.preprocess]) keep the schema they wrap out of sight. *)
Inductive ZodType : Type :=
| ZodString
| ZodNumber
| ZodBoolean
| ZodObject (shape : list (string * ZodType))
| ZodOptional (innerType : ZodType)
| ZodEffects (inner : ZodType).

(** [isZodObject]: [Reflect.has(value, 'shape')]. *)
Definition isZodObject (schema : ZodType) : bool :=
  match schema with
  | ZodObject _ => true
  | _ => false
  end.

(** The outcome of [schema.safeParse]. *)
Inductive SafeParseReturnType : Type :=
| SafeParseSuccess (data : value)
| SafeParseError (err : list ZodIssue).

(* ------------------------------------------------------------------------- *)
(** ** Names of environment variables *)

Definition upper (c : ascii) : ascii :=
  let n := nat_of_ascii c in
  if (Nat.leb 97 n && Nat.leb n 122)%bool then ascii_of_nat (n - 32) else c.

(** [p.toUpperCase()], on ASCII. *)
Fixpoint toUpperCase (s : string) : string :=
  match s with
  | EmptyString => EmptyString
  | String c rest => String (upper c) (toUpperCase rest)
  end.

(** [path.map(p => p.toUpperCase()).join('_')]. *)
Definition envVarName (path : list string) : string :=
  String.concat "_" (map toUpperCase path).

(** [process.env]. *)
Definition environment : Type := string -> option string.

Definition readEnvValue (env : environment) (path : list string) : option string :=
  env (envVarName path).

(** [process.env[name] = v] before the resolver runs. *)
Definition setEnv (name v : string) (env : environment) : environment :=
  fun n => if String.eqb n name then Some v else env n.

Definition emptyEnv : environment := fun _ => None.

(* ------------------------------------------------------------------------- *)
(** ** The environment resolver *)

(** The [path.reduce] of [readEnv]: walks [input] along [path], puts [{}]
    where a step finds [undefined] or [null] ([??]), and stores [v] at the
    last key.  A step that lands on a primitive makes the next assignment
    throw (class bodies are strict code).  No array is ever stored in this
    tree; the model throws there too. *)
Fixpoint writePath (path : list string) (v : string) (input : record)
    : result record :=
  match path with
  | [] => Return input
  | [key] => Return (assign key (VStr v) input)
  | key :: rest =>
      match lookup key input with
      | None | Some VUndefined | Some VNull =>
          child <- writePath rest v [] ;;
          Return (assign key (VRec child) input)
      | Some (VRec fields) =>
          child <- writePath rest v fields ;;
          Return (assign key (VRec child) input)
      | Some _ => Throw TypeError
      end
  end.

(** What [readEnv] does at a node without [shape]. *)
Definition readLeaf (env : environment) (path : list string) (input : record)
    : result record :=
  match readEnvValue env path with
  | Some v => writePath path v input
  | None => Return input
  end.

(** [readEnv(path, schema)], acting on the record [input] it closes over. *)
Fixpoint readEnv (env : environment) (path : list string) (schema : ZodType)
    (input : record) : result record :=
  match schema with
  | ZodObject shape =>
      (fix forIn (shape : list (string * ZodType)) (input : record)
         : result record :=
         match shape with
         | [] => Return input
         | (key, child) :: rest =>
             input' <- readEnv env (path ++ [key]) child input ;;
             forIn rest input'
         end) shape input
  | _ => readLeaf env path input
  end.

(** The paths at which [readEnv] reaches a node without [shape], in the
    order it reaches them. *)
Fixpoint leafPaths (path : list string) (schema : ZodType) : list (list string) :=
  match schema with
  | ZodObject shape =>
      (fix forIn (shape : list (string * ZodType)) : list (list string) :=
         match shape with
         | [] => []
         | (key, child) :: rest => leafPaths (path ++ [key]) child ++ forIn rest
         end) shape
  | _ => [path]
  end.

(** Distinct keys in every [shape]. *)
Fixpoint wfSchema (schema : ZodType) : Prop :=
  match schema with
  | ZodObject shape =>
      NoDup (map fst shape) /\
      (fix all (shape : list (string * ZodType)) : Prop :=
         match shape with
         | [] => True
         | (_, child) :: rest => wfSchema child /\ all rest
         end) shape
  | _ => True
  end.

(** Running a step that can throw over a list, left to right. *)
Fixpoint foldM {A B : Type} (f : B -> A -> result B) (xs : list A) (b : B)
    : result B :=
  match xs with
  | [] => Return b
  | x :: rest => b' <- f b x ;; foldM f rest b'
  end.

(** The record a step of [writePath] goes down into: [input[key] ?? {}]. *)
Definition childOf (found : option value) : result record :=
  match found with
  | None | Some VUndefined | Some VNull => Return []
  | Some (VRec fields) => Return fields
  | Some _ => Throw TypeError
  end.

Definition prefix (p q : list string) : Prop := exists s, q = p ++ s.

(** Two paths that part ways: neither leads through the other. *)
Definition apart (p q : list string) : Prop := ~ prefix p q /\ ~ prefix q p.

(* ------------------------------------------------------------------------- *)
(** ** The source collector *)

Record Config : Type := {
  schema : ZodType;
  files : list string;
  values : list record;
  readFromEnv : bool
}.

Definition newConfig (schema : ZodType) : Config :=
  {| schema := schema; files := []; values := []; readFromEnv := false |}.

(** The chained methods; each returns [this]. *)
Module Methods.

Definition readValue (vs : list record) (this : Config) : Config :=
  {| schema := schema this; files := files this;
     values := values this ++ vs; readFromEnv := readFromEnv this |}.

Definition readFile (filePaths : list string) (this : Config) : Config :=
  {| schema := schema this; files := files this ++ filePaths;
     values := values this; readFromEnv := readFromEnv this |}.

Definition readEnv (this : Config) : Config :=
  {| schema := schema this; files := files this;
     values := values this; readFromEnv := true |}.

End Methods.

(** One call of a chained method, and a chain of them on a new [Config]. *)
Inductive call : Type :=
| CallReadValue (vs : list record)
| CallReadFile (filePaths : list string)
| CallReadEnv.

Definition applyCall (this : Config) (k : call) : Config :=
  match k with
  | CallReadValue vs => Methods.readValue vs this
  | CallReadFile filePaths => Methods.readFile filePaths this
  | CallReadEnv => Methods.readEnv this
  end.

Definition build (schema : ZodType) (calls : list call) : Config :=
  fold_left applyCall calls (newConfig schema).

(** What a chain of calls gives each tier. *)
Definition valuesOf (calls : list call) : list record :=
  flat_map (fun k => match k with CallReadValue vs => vs | _ => [] end) calls.

Definition filesOf (calls : list call) : list string :=
  flat_map (fun k => match k with CallReadFile ps => ps | _ => [] end) calls.

Definition envOf (calls : list call) : bool :=
  existsb (fun k => match k with CallReadEnv => true | _ => false end) calls.

(* ------------------------------------------------------------------------- *)
(** ** The loader *)

Section Loader.

(** The collaborators: the file system ([readFileSync] and [readFile] of
    [node:fs] see the same files), [JSON.parse(data.toString())], the process
    environment and the validator [schema.safeParse]. *)
Variable Buffer : Type.
Variable readFileSync : string -> result Buffer.
Variable JSON_parse : Buffer -> result value.
Variable env : environment.
Variable schemaSafeParse : ZodType -> record -> SafeParseReturnType.

(** [z.object({}).passthrough().parse(v)]: a record passes unchanged,
    anything else is refused. *)
Definition passthroughParse (v : value) : result record :=
  match v with
  | VRec fields => Return fields
  | _ => Throw (ZodError [ {| code := "invalid_type"; issuePath := [];
                             message := "Expected object" |} ])
  end.

(** [schema.parse(input)]: throws what [safeParse] reports. *)
Definition schemaParse (schema : ZodType) (input : record) : result value :=
  match schemaSafeParse schema input with
  | SafeParseSuccess data => Return data
  | SafeParseError err => Throw (ZodError err)
  end.

Definition parseFile (data : Buffer) : result record :=
  v <- JSON_parse data ;; passthroughParse v.

Definition readInValues (this : Config) : record :=
  deepMerge (values this).

Definition readInFilesSync (this : Config) : result record :=
  fs <- mapM (fun path => data <- readFileSync path ;; parseFile data)
          (files this) ;;
  Return (deepMerge fs).

(** The promise made for one file: a read error rejects it; [parseFile] runs
    in the callback of [readFile], where a throw is caught by no one. *)
Definition filePromise (filePath : string) : promise record :=
  match readFileSync filePath with
  | Throw err => Rejected err
  | Return data =>
      match parseFile data with
      | Return fields => Resolved fields
      | Throw e => Uncaught e
      end
  end.

(** [completion] is the order in which the reads complete. *)
Definition readInFiles (completion : list nat) (this : Config) : promise record :=
  await (Promise_all completion (map filePromise (files this)))
        (fun fs => Return (deepMerge fs)).

Definition readInEnv (this : Config) : result record :=
  if negb (readFromEnv this) then Return []
  else readEnv env [] (schema this) [].

Definition getInput (this : Config) : result record :=
  let fromValues := readInValues this in
  fromFiles <- readInFilesSync this ;;
  fromEnv <- readInEnv this ;;
  Return (deepMerge [fromValues; fromFiles; fromEnv]).

Definition getInputAsync (completion : list nat) (this : Config) : promise record :=
  let fromValues := readInValues this in
  await (readInFiles completion this) (fun fromFiles =>
    fromEnv <- readInEnv this ;;
    Return (deepMerge [fromValues; fromFiles; fromEnv])).

Definition parse (this : Config) : result value :=
  input <- getInput this ;; schemaParse (schema this) input.

Definition safeParse (this : Config) : result SafeParseReturnType :=
  input <- getInput this ;; Return (schemaSafeParse (schema this) input).

Definition parseAsync (completion : list nat) (this : Config) : promise value :=
  await (getInputAsync completion this) (schemaParse (schema this)).

Definition safeParseAsync (completion : list nat) (this : Config)
    : promise SafeParseReturnType :=
  await (getInputAsync completion this)
        (fun input => Return (schemaSafeParse (schema this) input)).

End Loader.

(* ------------------------------------------------------------------------- *)
(** ** The resolver of the later revision

    The later revision of the file (the one with [FileEntry]) has the same
    resolver, character for character; its README and its tests describe
    another naming. *)

Module Revised.

Definition envVarName (path : list string) : string :=
  String.concat "_" (map toUpperCase path).

Definition readEnvValue (env : environment) (path : list string) : option string :=
  env (envVarName path).

Definition readLeaf (env : environment) (path : list string) (input : record)
    : result record :=
  match readEnvValue env path with
  | Some v => writePath path v input
  | None => Return input
  end.

Fixpoint readEnv (env : environment) (path : list string) (schema : ZodType)
    (input : record) : result record :=
  match schema with
  | ZodObject shape =>
      (fix forIn (shape : list (string * ZodType)) (input : record)
         : result record :=
         match shape with
         | [] => Return input
         | (key, child) :: rest =>
             input' <- readEnv env (path ++ [key]) child input ;;
             forIn rest input'
         end) shape input
  | _ => readLeaf env path input
  end.

Definition readInEnv (env : environment) (this : Config) : result record :=
  if negb (readFromEnv this) then Return []
  else readEnv env [] (schema this) [].

End Revised.

(* ------------------------------------------------------------------------- *)
(** ** Schemas and configurations of the tests *)

(** [z.object({fooBar: z.string(), foobar: z.string()})]. *)
Definition CamelConfig : ZodType :=
  ZodObject [("fooBar", ZodString); ("foobar", ZodString)].

(** [z.object({foo_bar: z.string(), foo: z.object({bar: z.string()})})]. *)
Definition ConflictConfig : ZodType :=
  ZodObject [("foo_bar", ZodString); ("foo", ZodObject [("bar", ZodString)])].


(** [BasicConfig] of the tests. *)
Definition BasicConfig : ZodType :=
  ZodObject [("string", ZodString); ("number", ZodNumber);
             ("object", ZodObject [("a", ZodOptional ZodString);
                                   ("b", ZodOptional ZodString);
                                   ("c", ZodOptional ZodString)])].

(** An object schema behind a wrapper:
    [z.object({server: z.object({port: z.string()}).optional()})]. *)
Definition WrappedConfig : ZodType :=
  ZodObject [("server", ZodOptional (ZodObject [("port", ZodString)]))].


Definition fooSafeParse (schema : ZodType) (input : record)
    : SafeParseReturnType :=
  match lookup "foo" input with
  | Some (VStr s) => SafeParseSuccess (VRec [("foo", VStr s)])
  | _ => SafeParseError [ {| code := "invalid_type"; issuePath := ["foo"];
                            message := "Expected string" |} ]
  end.


(** A file system with two files, given by what they decode to. *)
Definition twoFiles (path : string) : result value :=
  if String.eqb path "one.json" then
    Return (VRec [("n", VNum 1); ("object", VRec [("a", VStr "a")])])
  else if String.eqb path "two.json" then
    Return (VRec [("n", VNum 2); ("object", VRec [("c", VStr "c")])])
  else Throw (ENOENT path).

Definition decoded (data : value) : result value := Return data.

(* ------------------------------------------------------------------------- *)
(** ** Files with their own parser (the later revision) *)

Module FileEntries.

Section WithBuffer.

Variable Buffer : Type.
Variable readFileSync : string -> result Buffer.
Variable JSON_parse : Buffer -> result value.

(** [FileEntry]: the tuple [[path, parse]]. *)
Definition FileEntry : Type := (string * (Buffer -> result value))%type.

(** An argument of [readFile]: [string | FileEntry]. *)
Inductive fileArg : Type :=
| PathArg (p : string)
| EntryArg (entry : FileEntry).

(** [isFileEntry]: [Array.isArray(v)]. *)
Definition isFileEntry (v : fileArg) : bool :=
  match v with
  | EntryArg _ => true
  | PathArg _ => false
  end.

Record Config : Type := {
  schema : ZodType;
  files : list FileEntry;
  values : list record;
  readFromEnv : bool
}.

Definition newConfig (schema : ZodType) : Config :=
  {| schema := schema; files := []; values := []; readFromEnv := false |}.

(** [parseFile], unchanged; as the [parse] of an entry its record is an
    [unknown]. *)
Definition parseFile (data : Buffer) : result value :=
  fields <- parseFile JSON_parse data ;; Return (VRec fields).

(** [readFile(...filePaths)]: [isFileEntry(p) ? p : [p, this.parseFile]]. *)
Definition readFile (filePaths : list fileArg) (this : Config) : Config :=
  {| schema := schema this;
     files := files this ++
              map (fun p => match p with
                            | EntryArg entry => entry
                            | PathArg path => (path, parseFile)
                            end) filePaths;
     values := values this; readFromEnv := readFromEnv this |}.

(** [z.object({}).passthrough().parse(entry[1](readFileSync(entry[0])))]. *)
Definition readEntry (entry : FileEntry) : result record :=
  data <- readFileSync (fst entry) ;;
  v <- snd entry data ;;
  passthroughParse v.

Definition readInFilesSync (this : Config) : result record :=
  fs <- mapM readEntry (files this) ;; Return (deepMerge fs).

End WithBuffer.

End FileEntries.

(** A file system with a third file, which decodes to an array. *)
Definition threeFiles (path : string) : result value :=
  if String.eqb path "list.json" then Return (VArr [VNum 1])
  else twoFiles path.


(** The path leads to a leaf path, one of [all], whose variable is set. *)
Definition justified (env : environment) (all : list (list string))
    (q : list string) : Prop :=
  exists p, In p all /\ prefix q p /\ env (envVarName p) <> None.

(* ------------------------------------------------------------------------- *)
(** ** Records with distinct keys at every depth *)

(** Every record inside the value has distinct keys; arrays are opaque. *)
Fixpoint wfV (v : value) : Prop :=
  match v with
  | VRec fields =>
      NoDup (map fst fields) /\
      (fix all (l : list (string * value)) : Prop :=
         match l with
         | [] => True
         | kv :: rest => wfV (snd kv) /\ all rest
         end) fields
  | _ => True
  end.

(* ------------------------------------------------------------------------- *)
(** ** Facts about records *)

Lemma lookup_assign_eq key v o : lookup key (assign key v o) = Some v.
Proof.
  induction o as [|[k w] rest IH]; simpl.
  - now rewrite String.eqb_refl.
  - destruct (String.eqb k key) eqn:E; simpl; rewrite E; auto.
Qed.

Lemma lookup_assign_ne key key' v o :
  key <> key' -> lookup key' (assign key v o) = lookup key' o.
Proof.
  intros Hne. induction o as [|[k w] rest IH]; simpl.
  - destruct (String.eqb key key') eqn:E; auto.
    apply String.eqb_eq in E. contradiction.
  - destruct (String.eqb k key) eqn:E; simpl.
    + apply String.eqb_eq in E. subst k.
      destruct (String.eqb key key') eqn:E'; auto.
      apply String.eqb_eq in E'. contradiction.
    + now rewrite IH.
Qed.

Lemma lookup_None_keys key o : lookup key o = None <-> ~ In key (keys o).
Proof.
  induction o as [|[k w] rest IH]; simpl.
  - tauto.
  - destruct (String.eqb k key) eqn:E.
    + apply String.eqb_eq in E. split; [discriminate | tauto].
    + apply String.eqb_neq in E. rewrite IH. tauto.
Qed.

Lemma lookup_Some_keys key o v : lookup key o = Some v -> In key (keys o).
Proof.
  intros H. destruct (in_dec string_dec key (keys o)) as [|n]; auto.
  apply lookup_None_keys in n. congruence.
Qed.

Lemma assign_fresh key v o :
  ~ In key (keys o) -> assign key v o = o ++ [(key, v)].
Proof.
  induction o as [|[k w] rest IH]; simpl; intros Hn; auto.
  destruct (String.eqb k key) eqn:E.
  - apply String.eqb_eq in E. tauto.
  - f_equal. apply IH. tauto.
Qed.

Lemma keys_assign_present key v o :
  In key (keys o) -> keys (assign key v o) = keys o.
Proof.
  induction o as [|[k w] rest IH]; simpl; intros Hin; [tauto|].
  destruct (String.eqb k key) eqn:E; simpl; auto.
  f_equal. apply IH. apply String.eqb_neq in E. tauto.
Qed.

Lemma keys_assign key v o :
  keys (assign key v o) =
  if in_dec string_dec key (keys o) then keys o else keys o ++ [key].
Proof.
  destruct (in_dec string_dec key (keys o)) as [i|n].
  - now apply keys_assign_present.
  - rewrite assign_fresh by assumption. unfold keys. now rewrite map_app.
Qed.

Lemma NoDup_snoc (A : Type) (x : A) l : NoDup l -> ~ In x l -> NoDup (l ++ [x]).
Proof.
  intros Hl Hx. apply (Permutation_NoDup (Permutation_cons_append l x)).
  now constructor.
Qed.

Lemma wfR_assign key v o : wfR o -> wfR (assign key v o).
Proof.
  unfold wfR. intros H. rewrite keys_assign.
  destruct (in_dec string_dec key (keys o)); auto using NoDup_snoc.
Qed.


(* ------------------------------------------------------------------------- *)
(** ** The recursion of [deepMerge] *)

Lemma height_VRec fields : height (VRec fields) = S (heightR fields).
Proof. reflexivity. Qed.

Lemma heightR_cons k v o : heightR ((k, v) :: o) = Nat.max (height v) (heightR o).
Proof. reflexivity. Qed.

Lemma lookup_height key o v : lookup key o = Some v -> height v <= heightR o.
Proof.
  induction o as [|[k w] rest IH]; simpl; [discriminate|].
  rewrite heightR_cons. destruct (String.eqb k key).
  - intros [= ->]. lia.
  - intros H. specialize (IH H). lia.
Qed.

Lemma heightR_assign key v o :
  heightR (assign key v o) <= Nat.max (height v) (heightR o).
Proof.
  induction o as [|[k w] rest IH]; simpl.
  - rewrite heightR_cons. unfold heightR. simpl. lia.
  - destruct (String.eqb k key); rewrite !heightR_cons; lia.
Qed.

Section MergeStable.

Variables self1 self2 : list record -> record.
Variable H : nat.
Hypothesis Hself : forall a b,
  heightR a < H -> heightR b < H ->
  self1 [a; b] = self2 [a; b] /\ heightR (self1 [a; b]) < H.

Lemma mergeKey_stable output kv :
  heightR output <= H -> height (snd kv) <= H ->
  mergeKey self1 output kv = mergeKey self2 output kv /\
  heightR (mergeKey self1 output kv) <= H.
Proof.
  destruct kv as [key objectValue]. simpl. intros Ho Hv.
  assert (Hplain : heightR (assign key objectValue output) <= H).
  { pose proof (heightR_assign key objectValue output). lia. }
  destruct (lookup key output) as [outputValue|] eqn:L; [|now split].
  destruct outputValue; try now split.
  destruct objectValue; try now split.
  apply lookup_height in L. rewrite height_VRec in L, Hv.
  destruct (Hself fields fields0) as [E B]; try lia.
  rewrite E. split; [reflexivity|].
  pose proof (heightR_assign key (VRec (self2 [fields; fields0])) output) as A.
  rewrite height_VRec in A. rewrite E in B. lia.
Qed.

Lemma mergeObject_stable object : forall output,
  heightR output <= H -> heightR object <= H ->
  mergeObject self1 output object = mergeObject self2 output object /\
  heightR (mergeObject self1 output object) <= H.
Proof.
  unfold mergeObject.
  induction object as [|[k v] rest IH]; cbn [fold_left]; intros output Ho Hobj.
  - now split.
  - rewrite heightR_cons in Hobj.
    destruct (mergeKey_stable output (k, v)) as [E B]; cbn [snd]; try lia.
    rewrite <- E. apply IH; [assumption | lia].
Qed.

Lemma mergeAll_stable_from objects : forall output,
  heightR output <= H -> Forall (fun o => heightR o <= H) objects ->
  fold_left (mergeObject self1) objects output =
  fold_left (mergeObject self2) objects output /\
  heightR (fold_left (mergeObject self1) objects output) <= H.
Proof.
  induction objects as [|o rest IH]; simpl; intros output Ho Hall.
  - now split.
  - inversion Hall as [|? ? Ho' Hrest]; subst.
    destruct (mergeObject_stable o output) as [E B]; try assumption.
    rewrite <- E. now apply IH.
Qed.

Lemma mergeAll_stable objects :
  Forall (fun o => heightR o <= H) objects ->
  mergeAll self1 objects = mergeAll self2 objects /\
  heightR (mergeAll self1 objects) <= H.
Proof.
  intros Hall. apply mergeAll_stable_from; [|assumption].
  unfold heightR. simpl. lia.
Qed.

End MergeStable.

Lemma heights_bounded (objects : list record) :
  Forall (fun o => heightR o <= list_max (map heightR objects)) objects.
Proof.
  pose proof (proj1 (list_max_le (map heightR objects) _) (le_n _)) as F.
  rewrite Forall_map in F. exact F.
Qed.

(** More depth than the records have changes nothing. *)
Lemma deepMergeFuel_stable n : forall m objects H,
  Forall (fun o => heightR o <= H) objects -> H < n -> H < m ->
  deepMergeFuel n objects = deepMergeFuel m objects /\
  heightR (deepMergeFuel n objects) <= H.
Proof.
  induction n as [|n IH]; intros m objects H Hall Hn Hm; [lia|].
  destruct m as [|m]; [lia|]. simpl.
  apply mergeAll_stable; [|assumption].
  intros a b Ha Hb.
  destruct (IH m [a; b] (H - 1)) as [E B]; try lia.
  - repeat constructor; lia.
  - split; [assumption | lia].
Qed.

(** The recursive equation of the source:
    [deepMerge(...objects) = objects.reduce(..., {})], the callback calling
    [deepMerge] itself. *)
Lemma deepMerge_eq objects : deepMerge objects = mergeAll deepMerge objects.
Proof.
  unfold deepMerge at 1. simpl.
  set (H := list_max (map heightR objects)).
  apply (@mergeAll_stable _ _ H); [|apply heights_bounded].
  intros a b Ha Hb. unfold deepMerge.
  assert (Hab : list_max (map heightR [a; b]) < H) by (simpl; lia).
  destruct (@deepMergeFuel_stable H (S (list_max (map heightR [a; b]))) [a; b]
              (list_max (map heightR [a; b]))) as [E B];
    [apply heights_bounded | lia | lia |].
  split; [assumption | lia].
Qed.

Lemma heightR_deepMerge objects :
  heightR (deepMerge objects) <= list_max (map heightR objects).
Proof.
  unfold deepMerge.
  apply (@deepMergeFuel_stable _ (S (list_max (map heightR objects)))); auto.
  apply heights_bounded.
Qed.

(* ------------------------------------------------------------------------- *)
(** ** Deep merge, key by key *)





Lemma wfR_nil : wfR [].
Proof. constructor. Qed.









(* ------------------------------------------------------------------------- *)
(** ** Claims about deep merge *)



(* ------------------------------------------------------------------------- *)
(** ** Writing at a path *)

Lemma writePath_cons2 k k2 rest v input :
  writePath (k :: k2 :: rest) v input =
  (child <- childOf (lookup k input) ;;
   child' <- writePath (k2 :: rest) v child ;;
   Return (assign k (VRec child') input)).
Proof.
  cbn [writePath]. destruct (lookup k input) as [[]|]; reflexivity.
Qed.

Lemma getPath_cons k p o :
  getPath o (k :: p) =
  match lookup k o with
  | Some w => getV w p
  | None => None
  end.
Proof. reflexivity. Qed.

Lemma getPath_nil_cons k p : getPath [] (k :: p) = None.
Proof. reflexivity. Qed.

Lemma getPath_child k k2 p o child :
  childOf (lookup k o) = Return child ->
  getPath o (k :: k2 :: p) = getPath child (k2 :: p).
Proof.
  rewrite getPath_cons. unfold childOf.
  destruct (lookup k o) as [[]|]; intros [= <-]; reflexivity.
Qed.

Lemma writePath_wfR path v input output :
  writePath path v input = Return output -> wfR input -> wfR output.
Proof.
  destruct path as [|k [|k2 rest]].
  - intros [= <-]. auto.
  - intros [= <-] Hw. now apply wfR_assign.
  - rewrite writePath_cons2.
    destruct (childOf (lookup k input)) as [child|]; [|discriminate].
    cbn [bind].
    destruct (writePath (k2 :: rest) v child) as [child'|]; [|discriminate].
    intros [= <-] Hw. now apply wfR_assign.
Qed.

(** After a write the value is at the path. *)
Lemma writePath_same path v : forall input output,
  path <> [] ->
  writePath path v input = Return output ->
  getPath output path = Some (VStr v).
Proof.
  induction path as [|k rest IH]; intros input output Hne Hw; [congruence|].
  destruct rest as [|k2 rest].
  - injection Hw as <-. rewrite getPath_cons, lookup_assign_eq. reflexivity.
  - rewrite writePath_cons2 in Hw.
    destruct (childOf (lookup k input)) as [child|]; [|discriminate].
    cbn [bind] in Hw.
    destruct (writePath (k2 :: rest) v child) as [child'|] eqn:Hc; [|discriminate].
    injection Hw as <-. rewrite getPath_cons, lookup_assign_eq.
    apply (IH child child'); [discriminate | assumption].
Qed.

Lemma prefix_nil p : prefix [] p.
Proof. now exists p. Qed.

Lemma prefix_cons k p q : prefix p q -> prefix (k :: p) (k :: q).
Proof. intros [s ->]. now exists s. Qed.

Lemma apart_sym p q : apart p q -> apart q p.
Proof. unfold apart. tauto. Qed.

Lemma apart_cons_inv k p q : apart (k :: p) (k :: q) -> apart p q.
Proof. intros [H1 H2]. split; intros Hp; [apply H1 | apply H2]; now apply prefix_cons. Qed.

Lemma apart_nonempty p q : apart p q -> p <> [] /\ q <> [].
Proof.
  intros [H1 H2]. split; intros ->; [apply H1 | apply H2]; apply prefix_nil.
Qed.

(** A write leaves every path that parts from it as it was. *)
Lemma writePath_other q v : forall p input output,
  apart p q ->
  writePath q v input = Return output ->
  getPath output p = getPath input p.
Proof.
  induction q as [|k rest IH]; intros p input output Hap Hw.
  - destruct (apart_nonempty Hap) as [_ Hq]. congruence.
  - destruct p as [|k' p'].
    { destruct (apart_nonempty Hap) as [Hp _]. congruence. }
    destruct (string_dec k k') as [<-|Hne].
    + apply apart_cons_inv in Hap.
      destruct (apart_nonempty Hap) as [Hp' Hrest].
      destruct rest as [|k2 rest]; [congruence|].
      destruct p' as [|k3 p']; [congruence|].
      rewrite writePath_cons2 in Hw.
      destruct (childOf (lookup k input)) as [child|] eqn:Hchild; [|discriminate].
      cbn [bind] in Hw.
      destruct (writePath (k2 :: rest) v child) as [child'|] eqn:Hc; [|discriminate].
      injection Hw as <-.
      rewrite (@getPath_child k k3 p' input child Hchild).
      rewrite getPath_cons, lookup_assign_eq.
      exact (IH (k3 :: p') child child' Hap Hc).
    + assert (E : exists w, output = assign k w input).
      { destruct rest as [|k2 rest].
        - injection Hw as <-. now eexists.
        - rewrite writePath_cons2 in Hw.
          destruct (childOf (lookup k input)) as [child|]; [|discriminate].
          cbn [bind] in Hw.
          destruct (writePath (k2 :: rest) v child) as [child'|]; [|discriminate].
          injection Hw as <-. now eexists. }
      destruct E as [w ->].
      rewrite !getPath_cons, lookup_assign_ne by assumption. reflexivity.
Qed.

(** Whether a write goes through does not depend on the writes made at paths
    that part from it. *)
Lemma writePath_other_ok q w : forall p v input output,
  apart p q ->
  writePath q w input = Return output ->
  (exists x, writePath p v input = Return x) ->
  exists y, writePath p v output = Return y.
Proof.
  induction q as [|k rest IH]; intros p v input output Hap Hw Hok.
  - destruct (apart_nonempty Hap) as [_ Hq]. congruence.
  - destruct p as [|k' p'].
    { destruct (apart_nonempty Hap) as [Hp _]. congruence. }
    destruct p' as [|k3 p']; [now eexists|].
    rewrite writePath_cons2. rewrite writePath_cons2 in Hok.
    destruct (string_dec k k') as [<-|Hne].
    + apply apart_cons_inv in Hap.
      destruct (apart_nonempty Hap) as [_ Hrest].
      destruct rest as [|k2 rest]; [congruence|].
      rewrite writePath_cons2 in Hw.
      destruct (childOf (lookup k input)) as [child|] eqn:Hchild; [|discriminate].
      cbn [bind] in Hw, Hok.
      destruct (writePath (k2 :: rest) w child) as [child'|] eqn:Hc; [|discriminate].
      injection Hw as <-. rewrite lookup_assign_eq. cbn [childOf bind].
      destruct (IH (k3 :: p') v child child' Hap Hc) as [y Hy].
      { destruct (writePath (k3 :: p') v child) as [x'|]; [now eexists|].
        destruct Hok as [x Hx]. discriminate. }
      rewrite Hy. now eexists.
    + assert (E : exists u, output = assign k u input).
      { destruct rest as [|k2 rest].
        - injection Hw as <-. now eexists.
        - rewrite writePath_cons2 in Hw.
          destruct (childOf (lookup k input)) as [child|]; [|discriminate].
          cbn [bind] in Hw.
          destruct (writePath (k2 :: rest) w child) as [child'|]; [|discriminate].
          injection Hw as <-. now eexists. }
      destruct E as [u ->]. rewrite lookup_assign_ne by assumption.
      destruct (childOf (lookup k' input)) as [child|]; cbn [bind] in *;
        [|destruct Hok as [x Hx]; discriminate].
      destruct (writePath (k3 :: p') v child) as [x'|]; cbn [bind] in *;
        [now eexists | destruct Hok as [x Hx]; discriminate].
Qed.

(** Into the empty record every write goes through. *)
Lemma writePath_nil_ok path v : exists x, writePath path v [] = Return x.
Proof.
  induction path as [|k rest IH]; [now eexists|].
  destruct rest as [|k2 rest]; [now eexists|].
  rewrite writePath_cons2. cbn [lookup childOf bind]. destruct IH as [x ->]. now eexists.
Qed.

(* ------------------------------------------------------------------------- *)
(** ** The resolver as a run of writes over the leaf paths *)

(** Induction on a schema, with the children of an object node at hand. *)
Lemma ZodType_nested_ind (P : ZodType -> Prop) :
  P ZodString -> P ZodNumber -> P ZodBoolean ->
  (forall shape, Forall (fun kv => P (snd kv)) shape -> P (ZodObject shape)) ->
  (forall t, P t -> P (ZodOptional t)) ->
  (forall t, P t -> P (ZodEffects t)) ->
  forall t, P t.
Proof.
  intros HString HNumber HBoolean HObject HOptional HEffects.
  exact (fix go (t : ZodType) : P t :=
    match t with
    | ZodString => HString
    | ZodNumber => HNumber
    | ZodBoolean => HBoolean
    | ZodObject shape =>
        HObject shape
          ((fix all (l : list (string * ZodType))
              : Forall (fun kv => P (snd kv)) l :=
              match l with
              | [] => Forall_nil _
              | kv :: rest => Forall_cons kv (go (snd kv)) (all rest)
              end) shape)
    | ZodOptional t => HOptional t (go t)
    | ZodEffects t => HEffects t (go t)
    end).
Qed.

Lemma bind_Return (A : Type) (m : result A) : (x <- m ;; Return x) = m.
Proof. now destruct m. Qed.

Lemma foldM_app (A B : Type) (f : B -> A -> result B) xs ys b :
  foldM f (xs ++ ys) b = (b' <- foldM f xs b ;; foldM f ys b').
Proof.
  revert b. induction xs as [|x rest IH]; intros b; simpl; auto.
  destruct (f b x); simpl; auto.
Qed.

Lemma readEnv_object env path shape input :
  readEnv env path (ZodObject shape) input =
  foldM (fun input kv => readEnv env (path ++ [fst kv]) (snd kv) input)
        shape input.
Proof.
  revert input. induction shape as [|[key child] rest IH]; intros input.
  - reflexivity.
  - cbn [foldM fst snd]. cbn [readEnv].
    destruct (readEnv env (path ++ [key]) child input) as [input'|];
      cbn [bind]; [exact (IH input') | reflexivity].
Qed.

Lemma leafPaths_object path shape :
  leafPaths path (ZodObject shape) =
  flat_map (fun kv => leafPaths (path ++ [fst kv]) (snd kv)) shape.
Proof.
  induction shape as [|[key child] rest IH].
  - reflexivity.
  - cbn [flat_map fst snd]. rewrite <- IH. reflexivity.
Qed.

Lemma wfSchema_object shape :
  wfSchema (ZodObject shape) <->
  NoDup (map fst shape) /\ Forall (fun kv => wfSchema (snd kv)) shape.
Proof.
  cbn [wfSchema].
  assert (E : forall l,
    (fix all (shape : list (string * ZodType)) : Prop :=
       match shape with
       | [] => True
       | (_, child) :: rest => wfSchema child /\ all rest
       end) l <-> Forall (fun kv => wfSchema (snd kv)) l).
  { induction l as [|[k c] r IH].
    - split; auto.
    - rewrite IH. split.
      + intros [? ?]. now constructor.
      + intros F. inversion F; subst. now split. }
  now rewrite E.
Qed.

Lemma readEnv_no_shape env path schema input :
  isZodObject schema = false ->
  readEnv env path schema input = readLeaf env path input.
Proof. destruct schema; try reflexivity. discriminate. Qed.

Lemma leafPaths_no_shape path schema :
  isZodObject schema = false -> leafPaths path schema = [path].
Proof. destruct schema; try reflexivity. discriminate. Qed.

Lemma readEnv_leafPaths env schema : forall path input,
  readEnv env path schema input =
  foldM (fun input p => readLeaf env p input) (leafPaths path schema) input.
Proof.
  induction schema as [| | |shape IH|t IH|t IH] using ZodType_nested_ind;
    intros path input;
    try (cbn [readEnv leafPaths foldM]; now rewrite bind_Return).
  rewrite readEnv_object, leafPaths_object. revert input.
  induction IH as [|[key child] rest Hchild _ IHrest]; intros input.
  - reflexivity.
  - cbn [foldM flat_map fst snd]. rewrite foldM_app.
    cbn [snd] in Hchild. rewrite Hchild.
    destruct (foldM _ (leafPaths (path ++ [key]) child) input); cbn [bind];
      [apply IHrest | reflexivity].
Qed.

Lemma leafPaths_prefix schema : forall path p,
  In p (leafPaths path schema) -> prefix path p.
Proof.
  induction schema as [| | |shape IH|t IH|t IH] using ZodType_nested_ind;
    intros path p;
    try (cbn [leafPaths In]; intros [<-|[]]; exists []; now rewrite app_nil_r).
  rewrite leafPaths_object, in_flat_map. intros [[key child] [Hin Hp]].
  rewrite Forall_forall in IH. apply (IH _ Hin) in Hp. cbn [fst snd] in Hp.
  destruct Hp as [s ->]. exists ([key] ++ s). now rewrite app_assoc.
Qed.

Lemma apart_diverge path k1 k2 p1 p2 :
  k1 <> k2 -> prefix (path ++ [k1]) p1 -> prefix (path ++ [k2]) p2 ->
  apart p1 p2.
Proof.
  intros Hne [s1 ->] [s2 ->].
  split; intros [s Hs]; rewrite <- !app_assoc in Hs;
    apply app_inv_head in Hs; simpl in Hs; congruence.
Qed.

Lemma ForallOrdPairs_app (A : Type) (R : A -> A -> Prop) l1 l2 :
  ForallOrdPairs R l1 -> ForallOrdPairs R l2 ->
  (forall x y, In x l1 -> In y l2 -> R x y) ->
  ForallOrdPairs R (l1 ++ l2).
Proof.
  induction 1 as [|x l Hx Hl IH]; intros H2 Hcross; simpl; auto.
  constructor.
  - apply Forall_app. split; auto.
    apply Forall_forall. intros y Hy. apply Hcross; simpl; auto.
  - apply IH; auto. intros a b Ha Hb. apply Hcross; simpl; auto.
Qed.

(** In a schema with distinct keys no leaf path leads through another. *)
Lemma leafPaths_apart schema : forall path,
  wfSchema schema -> ForallOrdPairs apart (leafPaths path schema).
Proof.
  induction schema as [| | |shape IH|t IH|t IH] using ZodType_nested_ind;
    intros path Hwf;
    try (cbn [leafPaths]; repeat constructor; fail).
  rewrite leafPaths_object. apply wfSchema_object in Hwf.
  destruct Hwf as [Hnd Hall].
  induction shape as [|[key child] rest IHrest]; [constructor|].
  cbn [flat_map fst snd]. simpl in Hnd.
  inversion Hnd as [|? ? Hkey Hnd']; subst.
  inversion Hall as [|? ? Hc Hall']; subst.
  inversion IH as [|? ? IHc IH']; subst.
  apply ForallOrdPairs_app.
  - apply IHc. exact Hc.
  - apply IHrest; assumption.
  - intros p1 p2 H1 H2. apply in_flat_map in H2.
    destruct H2 as [[key2 child2] [Hin2 H2]]. cbn [fst snd] in H2.
    apply (@apart_diverge path key key2).
    + intros <-. apply Hkey. apply (in_map fst) in Hin2. exact Hin2.
    + now apply leafPaths_prefix in H1.
    + now apply leafPaths_prefix in H2.
Qed.

Lemma leafPaths_nonempty shape p :
  In p (leafPaths [] (ZodObject shape)) -> p <> [].
Proof.
  rewrite leafPaths_object, in_flat_map. intros [[key child] [_ Hp]].
  apply leafPaths_prefix in Hp. destruct Hp as [s ->]. discriminate.
Qed.

Lemma readLeaf_Some env path input v :
  readEnvValue env path = Some v ->
  readLeaf env path input = writePath path v input.
Proof. unfold readLeaf. now intros ->. Qed.

Lemma readLeaf_None env path input :
  readEnvValue env path = None -> readLeaf env path input = Return input.
Proof. unfold readLeaf. now intros ->. Qed.

(** A run of leaf reads over paths that part from each other: it goes
    through, each path gets what its own variable holds, everything else
    stays. *)
Lemma readLeaves_spec env ps : forall input,
  ForallOrdPairs apart ps ->
  (forall p, In p ps -> p <> []) ->
  (forall p v, In p ps -> exists x, writePath p v input = Return x) ->
  exists output,
    foldM (fun input p => readLeaf env p input) ps input = Return output /\
    (wfR input -> wfR output) /\
    (forall p, In p ps ->
       getPath output p =
       match readEnvValue env p with
       | Some v => Some (VStr v)
       | None => getPath input p
       end) /\
    (forall q, (forall p, In p ps -> apart q p) ->
       getPath output q = getPath input q).
Proof.
  induction ps as [|p ps IH]; intros input Hpairs Hne Hok.
  - exists input. repeat split; auto. intros p [].
  - inversion Hpairs as [|? ? Hp Hps]; subst. rewrite Forall_forall in Hp.
    cbn [foldM].
    destruct (readEnvValue env p) as [v|] eqn:Hv.
    + destruct (Hok p v (or_introl eq_refl)) as [mid Hmid].
      rewrite (@readLeaf_Some env p input v Hv), Hmid. cbn [bind].
      destruct (IH mid Hps) as [output [Hrun [Hwf [Hin Hout]]]].
      { intros p' Hp'. apply Hne. now right. }
      { intros p' v' Hp'. apply (@writePath_other_ok p v p' v' input mid).
        - apply apart_sym. now apply Hp.
        - exact Hmid.
        - apply Hok. now right. }
      exists output. split; [exact Hrun|]. split; [|split].
      * intros Hw. apply Hwf. exact (@writePath_wfR p v input mid Hmid Hw).
      * intros q [<-|Hq].
        -- rewrite Hv, (Hout p) by (intros p' Hp'; now apply Hp).
           apply (@writePath_same p v input mid); [|exact Hmid].
           apply Hne. now left.
        -- rewrite (Hin q Hq). destruct (readEnvValue env q); auto.
           apply (@writePath_other p v q input mid); [|exact Hmid].
           apply apart_sym. now apply Hp.
      * intros q Hq. rewrite Hout by (intros p' Hp'; apply Hq; now right).
        apply (@writePath_other p v q input mid); [|exact Hmid].
        apply Hq. now left.
    + rewrite (@readLeaf_None env p input Hv). cbn [bind].
      destruct (IH input Hps) as [output [Hrun [Hwf [Hin Hout]]]].
      { intros p' Hp'. apply Hne. now right. }
      { intros p' v' Hp'. apply Hok. now right. }
      exists output. split; [exact Hrun|]. split; [exact Hwf|split].
      * intros q [<-|Hq].
        -- rewrite Hv. apply Hout. intros p' Hp'. now apply Hp.
        -- now apply Hin.
      * intros q Hq. apply Hout. intros p' Hp'. apply Hq. now right.
Qed.

(* ------------------------------------------------------------------------- *)
(** ** Claims about the environment resolver *)

Lemma toUpperCase_length s : String.length (toUpperCase s) = String.length s.
Proof. induction s as [|c s IH]; simpl; auto. Qed.

Lemma envVarName_cons k k2 path :
  envVarName (k :: k2 :: path) =
  (toUpperCase k ++ "_" ++ envVarName (k2 :: path))%string.
Proof. reflexivity. Qed.

Ltac distinct_keys :=
  repeat constructor; simpl; intuition discriminate.

(** Computes the variable names that occur in the goal. *)
Ltac env_names :=
  repeat match goal with
  | |- context [envVarName ?p] =>
      let n := eval vm_compute in (envVarName p) in
      change (envVarName p) with n
  end.

(** Runs the resolver on a schema that is given, the environment being
    known only through [Hv]. *)
Ltac run_resolver Hv :=
  unfold readInEnv; cbn -[envVarName];
  unfold readLeaf, readEnvValue; env_names;
  rewrite !Hv; reflexivity.

(** C4.  The legacy name of a leaf path: every segment upper-cased, letter
    for letter (nothing is put at a camel-case boundary), and the segments
    joined by one underscore.  [database.poolSize] gives [DATABASE_POOLSIZE];
    the flat fields [fooBar] and [foobar] both give [FOOBAR], and with only
    [FOOBAR] set the resolver fills both fields with its value. *)
Theorem legacy_envVarName :
  (forall path, envVarName path = String.concat "_" (map toUpperCase path)) /\
  (forall segment,
      String.length (toUpperCase segment) = String.length segment) /\
  (forall k k2 path,
      envVarName (k :: k2 :: path) =
      (toUpperCase k ++ "_" ++ envVarName (k2 :: path))%string) /\
  envVarName ["database"; "poolSize"] = "DATABASE_POOLSIZE" /\
  envVarName ["fooBar"] = "FOOBAR" /\
  envVarName ["foobar"] = "FOOBAR" /\
  (forall env v, env "FOOBAR" = Some v ->
     readInEnv env (Methods.readEnv (newConfig CamelConfig)) =
     Return [("fooBar", VStr v); ("foobar", VStr v)]).
Proof.
  repeat split; try reflexivity.
  - apply toUpperCase_length.
  - intros env v Hv. run_resolver Hv.
Qed.

Lemma legacy_envVarName_witness :
  readInEnv (setEnv "FOOBAR" "baz" emptyEnv)
            (Methods.readEnv (newConfig CamelConfig)) =
  Return [("fooBar", VStr "baz"); ("foobar", VStr "baz")].
Proof.
  apply (proj2 (proj2 (proj2 (proj2 (proj2 (proj2 legacy_envVarName)))))).
  reflexivity.
Defined.

Lemma readInEnv_spec (env : environment) (this : Config) :
  wfSchema (schema this) ->
  isZodObject (schema this) = true ->
  readFromEnv this = true ->
  exists output,
    readInEnv env this = Return output /\
    forall path, In path (leafPaths [] (schema this)) ->
      getPath output path =
      match env (envVarName path) with
      | Some v => Some (VStr v)
      | None => None
      end.
Proof.
  intros Hwf Hobj Henv. unfold readInEnv. rewrite Henv. cbn [negb].
  rewrite readEnv_leafPaths.
  destruct (schema this) as [| | |shape| |]; try discriminate.
  destruct (@readLeaves_spec env (leafPaths [] (ZodObject shape)) [])
    as [output [Hrun [_ [Hin _]]]].
  - now apply leafPaths_apart.
  - intros p. apply leafPaths_nonempty.
  - intros p v _. apply writePath_nil_ok.
  - exists output. split; [exact Hrun|].
    intros path Hpath. rewrite (Hin path Hpath). unfold readEnvValue.
    destruct (env (envVarName path)); [reflexivity|].
    apply leafPaths_nonempty in Hpath.
    destruct path; [congruence | reflexivity].
Qed.

(** With distinct keys in the schema the resolver does not throw. *)
Lemma readInEnv_total (env : environment) (this : Config) :
  wfSchema (schema this) ->
  isZodObject (schema this) = true ->
  exists output, readInEnv env this = Return output.
Proof.
  intros Hwf Hobj. destruct (readFromEnv this) eqn:Henv.
  - destruct (readInEnv_spec env this Hwf Hobj Henv) as [output [H _]].
    now exists output.
  - exists []. unfold readInEnv. now rewrite Henv.
Qed.

(** C6.  For a schema with distinct keys, the resolver returns a record in
    which every leaf path of the schema holds the value of its environment
    variable, as a string and unchanged, below the records made on the way,
    when the variable is set (the empty string too); when the variable is
    not set there is no value at the path. *)
Theorem readInEnv_writes_iff_present (env : environment) (this : Config) :
  wfSchema (schema this) ->
  isZodObject (schema this) = true ->
  readFromEnv this = true ->
  exists output,
    readInEnv env this = Return output /\
    forall path, In path (leafPaths [] (schema this)) ->
      getPath output path =
      match env (envVarName path) with
      | Some v => Some (VStr v)
      | None => None
      end.
Proof. exact (readInEnv_spec env this). Qed.

Lemma readInEnv_writes_iff_present_witness :
  exists output,
    readInEnv (setEnv "OBJECT_A" "" emptyEnv)
              (Methods.readEnv (newConfig BasicConfig)) = Return output /\
    forall path, In path (leafPaths [] BasicConfig) ->
      getPath output path =
      match setEnv "OBJECT_A" "" emptyEnv (envVarName path) with
      | Some v => Some (VStr v)
      | None => None
      end.
Proof.
  apply (@readInEnv_writes_iff_present (setEnv "OBJECT_A" "" emptyEnv)
           (Methods.readEnv (newConfig BasicConfig))).
  - cbn. repeat split; distinct_keys.
  - reflexivity.
  - reflexivity.
Defined.

(** C7.  The flat field [foo_bar] and the leaf [bar] of the nested object
    [foo] have the same variable name, [FOO_BAR]; when it is set the
    resolver stores its value at both paths and reports nothing. *)
Theorem flat_and_nested_share_FOO_BAR :
  envVarName ["foo_bar"] = "FOO_BAR" /\
  envVarName ["foo"; "bar"] = "FOO_BAR" /\
  leafPaths [] ConflictConfig = [["foo_bar"]; ["foo"; "bar"]] /\
  (forall env v, env "FOO_BAR" = Some v ->
     readInEnv env (Methods.readEnv (newConfig ConflictConfig)) =
     Return [("foo_bar", VStr v); ("foo", VRec [("bar", VStr v)])]).
Proof.
  repeat split; try reflexivity.
  intros env v Hv. run_resolver Hv.
Qed.

Lemma flat_and_nested_share_FOO_BAR_witness :
  readInEnv (setEnv "FOO_BAR" "baz" emptyEnv)
            (Methods.readEnv (newConfig ConflictConfig)) =
  Return [("foo_bar", VStr "baz"); ("foo", VRec [("bar", VStr "baz")])].
Proof.
  apply (proj2 (proj2 (proj2 flat_and_nested_share_FOO_BAR))).
  reflexivity.
Defined.

(** C10.  The resolver goes into the children of a schema node exactly when
    the node has a [shape].  A node without one, an object schema behind
    [optional] or [preprocess] included, is one leaf: it is read from the
    one variable named after its own path and none of the paths below it is
    looked at. *)
Theorem readEnv_recurses_iff_shape
    (env : environment) (path : list string) (schema : ZodType)
    (input : record) :
  (isZodObject schema = true ->
     exists shape, schema = ZodObject shape /\
       readEnv env path schema input =
       foldM (fun input kv => readEnv env (path ++ [fst kv]) (snd kv) input)
             shape input) /\
  (isZodObject schema = false ->
     leafPaths path schema = [path] /\
     readEnv env path schema input =
     match env (envVarName path) with
     | Some v => writePath path v input
     | None => Return input
     end) /\
  (forall inner,
     isZodObject (ZodOptional inner) = false /\
     isZodObject (ZodEffects inner) = false) /\
  readInEnv (setEnv "SERVER_PORT" "80" emptyEnv)
            (Methods.readEnv (newConfig WrappedConfig)) = Return [] /\
  readInEnv (setEnv "SERVER" "x" emptyEnv)
            (Methods.readEnv (newConfig WrappedConfig)) =
  Return [("server", VStr "x")].
Proof.
  split; [|split; [|split; [|split]]].
  - intros Hobj. destruct schema as [| | |shape| |]; try discriminate.
    exists shape. split; [reflexivity | apply readEnv_object].
  - intros Hleaf. split; [now apply leafPaths_no_shape|].
    now rewrite readEnv_no_shape.
  - intros inner. now split.
  - reflexivity.
  - reflexivity.
Qed.

Lemma readEnv_recurses_iff_shape_witness :
  leafPaths ["server"] (ZodOptional (ZodObject [("port", ZodString)]))
  = [["server"]] /\
  readEnv (setEnv "SERVER_PORT" "80" emptyEnv) ["server"]
          (ZodOptional (ZodObject [("port", ZodString)])) [] = Return [].
Proof.
  apply (proj1 (proj2 (@readEnv_recurses_iff_shape
           (setEnv "SERVER_PORT" "80" emptyEnv) ["server"]
           (ZodOptional (ZodObject [("port", ZodString)])) []))).
  reflexivity.
Defined.




(* ------------------------------------------------------------------------- *)
(** ** [Promise.all] *)

Lemma setSlot_length (A : Type) i (x : A) slots :
  List.length (setSlot i x slots) = List.length slots.
Proof.
  revert i. induction slots as [|y rest IH]; intros [|j]; simpl; auto.
Qed.

Lemma nth_error_setSlot_eq (A : Type) i (x : A) slots :
  i < List.length slots -> nth_error (setSlot i x slots) i = Some x.
Proof.
  revert i. induction slots as [|y rest IH]; intros [|j]; simpl; intros Hi;
    try lia; auto.
  apply IH. lia.
Qed.

Lemma nth_error_setSlot_ne (A : Type) i j (x : A) slots :
  i <> j -> nth_error (setSlot i x slots) j = nth_error slots j.
Proof.
  revert i j. induction slots as [|y rest IH]; intros [|i] [|j] Hne; simpl;
    auto; try congruence.
Qed.

Section Settle.

Variable A : Type.
Variable rs : list A.

Lemma agrees_setSlot i r slots :
  nth_error rs i = Some r ->
  agrees rs slots -> agrees rs (setSlot i (Some r) slots).
Proof.
  intros Hr [Hlen Hslots]. split.
  - now rewrite setSlot_length.
  - intros j r' Hj. destruct (Nat.eq_dec i j) as [<-|Hne].
    + right. rewrite nth_error_setSlot_eq.
      * congruence.
      * rewrite Hlen. apply nth_error_Some. congruence.
    + rewrite nth_error_setSlot_ne by assumption. now apply Hslots.
Qed.

(** When every task is fulfilled, the slots of the completed ones end up
    holding their values, whatever the order of completion. *)
Lemma settle_fulfilled completion : forall slots,
  agrees rs slots ->
  exists slots',
    settle (map (@Resolved A) rs) completion slots = Resolved slots' /\
    agrees rs slots' /\
    forall j r, nth_error rs j = Some r ->
      In j completion \/ nth_error slots j = Some (Some r) ->
      nth_error slots' j = Some (Some r).
Proof.
  induction completion as [|i later IH]; intros slots Hag.
  - exists slots. repeat split; try apply Hag. intros j r _ [[]|H]. exact H.
  - cbn [settle]. rewrite nth_error_map.
    destruct (nth_error rs i) as [r|] eqn:Hi; cbn [option_map].
    + destruct (IH (setSlot i (Some r) slots)) as [slots' [Hrun [Hag' Hfill]]].
      { now apply agrees_setSlot. }
      exists slots'. split; [exact Hrun|]. split; [exact Hag'|].
      intros j r' Hj [[<-|Hin]|Hold].
      * apply Hfill; [exact Hj|]. right.
        rewrite nth_error_setSlot_eq; [congruence|].
        destruct Hag as [Hlen _]. rewrite Hlen. apply nth_error_Some. congruence.
      * apply Hfill; auto.
      * apply Hfill; [exact Hj|]. right.
        destruct (Nat.eq_dec i j) as [<-|Hne].
        -- rewrite nth_error_setSlot_eq; [congruence|].
           destruct Hag as [Hlen _]. rewrite Hlen. apply nth_error_Some.
           congruence.
        -- now rewrite nth_error_setSlot_ne.
    + destruct (IH slots Hag) as [slots' [Hrun [Hag' Hfill]]].
      exists slots'. split; [exact Hrun|]. split; [exact Hag'|].
      intros j r' Hj [[<-|Hin]|Hold]; try (apply Hfill; auto; fail).
      congruence.
Qed.

Lemma agrees_empty : agrees rs (repeat None (List.length rs)).
Proof.
  split.
  - apply repeat_length.
  - intros i r Hi. left. apply nth_error_repeat.
    apply nth_error_Some. congruence.
Qed.

End Settle.

Lemma filled_all (A : Type) (rs : list A) : forall slots,
  List.length slots = List.length rs ->
  (forall j r, nth_error rs j = Some r -> nth_error slots j = Some (Some r)) ->
  filled slots = Some rs.
Proof.
  induction rs as [|r rest IH]; intros [|s slots] Hlen Hall;
    try discriminate; auto.
  pose proof (Hall 0 r eq_refl) as H0. simpl in H0. injection H0 as ->.
  cbn [filled]. rewrite (IH slots); auto.
  intros j r' Hj. exact (Hall (S j) r' Hj).
Qed.

Lemma Promise_all_fulfilled (A : Type) (rs : list A) completion :
  Permutation completion (seq 0 (List.length rs)) ->
  Promise_all completion (map (@Resolved A) rs) = Resolved rs.
Proof.
  intros Hperm. unfold Promise_all. rewrite length_map.
  destruct (@settle_fulfilled A rs completion (repeat None (List.length rs)))
    as [slots' [Hrun [[Hlen _] Hfill]]]; [apply agrees_empty|].
  rewrite Hrun. rewrite (@filled_all A rs slots'); auto.
  intros j r Hj. apply Hfill; [exact Hj|]. left.
  apply (Permutation_in j (Permutation_sym Hperm)).
  apply in_seq. split; [lia|]. simpl. apply nth_error_Some. congruence.
Qed.

(** A task that fails and completes keeps [settle] from fulfilling. *)
Lemma settle_failed (A : Type) (tasks : list (promise A)) completion :
  forall slots,
  (exists j, In j completion /\
     exists e, nth_error tasks j = Some (Rejected e) \/
               nth_error tasks j = Some (Uncaught e)) ->
  forall slots', settle tasks completion slots <> Resolved slots'.
Proof.
  induction completion as [|i later IH]; intros slots [j [Hin [e He]]] slots'.
  - destruct Hin.
  - cbn [settle]. destruct Hin as [<-|Hin].
    + destruct He as [-> | ->]; discriminate.
    + destruct (nth_error tasks i) as [[| | |]|]; try discriminate;
        apply IH; exists j; split; eauto.
Qed.

Lemma Promise_all_failed (A : Type) (tasks : list (promise A)) completion j e :
  Permutation completion (seq 0 (List.length tasks)) ->
  nth_error tasks j = Some (Rejected e) \/ nth_error tasks j = Some (Uncaught e) ->
  forall values, Promise_all completion tasks <> Resolved values.
Proof.
  intros Hperm He values. unfold Promise_all.
  destruct (settle tasks completion (repeat None (List.length tasks)))
    as [slots| | |] eqn:Hs; try discriminate.
  exfalso. apply (@settle_failed A tasks completion
                    (repeat None (List.length tasks))) with (slots' := slots);
    [|exact Hs].
  exists j. split; [|eauto].
  apply (Permutation_in j (Permutation_sym Hperm)).
  apply in_seq. split; [lia|]. simpl. apply nth_error_Some.
  destruct He as [-> | ->]; discriminate.
Qed.

(* ------------------------------------------------------------------------- *)
(** ** The loader *)

Lemma foldM_wfR env ps : forall input output,
  foldM (fun input p => readLeaf env p input) ps input = Return output ->
  wfR input -> wfR output.
Proof.
  induction ps as [|p ps IH]; intros input output; cbn [foldM].
  - now intros [= <-].
  - destruct (readLeaf env p input) as [mid|] eqn:Hmid; cbn [bind];
      [|discriminate].
    intros Hrun Hw. apply (IH mid output Hrun).
    unfold readLeaf in Hmid. destruct (readEnvValue env p) as [v|].
    + exact (@writePath_wfR p v input mid Hmid Hw).
    + now injection Hmid as <-.
Qed.

Lemma readInEnv_wfR env this output :
  readInEnv env this = Return output -> wfR output.
Proof.
  unfold readInEnv. destruct (negb (readFromEnv this)).
  - intros [= <-]. apply wfR_nil.
  - rewrite readEnv_leafPaths. intros Hrun.
    exact (@foldM_wfR env _ [] output Hrun wfR_nil).
Qed.

Lemma build_from calls : forall this,
  fold_left applyCall calls this =
  {| schema := schema this;
     files := files this ++ filesOf calls;
     values := values this ++ valuesOf calls;
     readFromEnv := readFromEnv this || envOf calls |}.
Proof.
  induction calls as [|k calls IH]; intros this; cbn [fold_left].
  - simpl. rewrite !app_nil_r, orb_false_r. now destruct this.
  - rewrite IH. destruct k; simpl; rewrite <- ?app_assoc; try reflexivity.
    now rewrite orb_true_r.
Qed.

Lemma build_tiers schema calls :
  build schema calls =
  {| schema := schema; files := filesOf calls; values := valuesOf calls;
     readFromEnv := envOf calls |}.
Proof. unfold build. now rewrite build_from. Qed.




Section LoaderFacts.

Variable Buffer : Type.
Variable readFileSync : string -> result Buffer.
Variable JSON_parse : Buffer -> result value.
Variable env : environment.
Variable schemaSafeParse : ZodType -> record -> SafeParseReturnType.

Let readOne (path : string) : result record :=
  data <- readFileSync path ;; parseFile JSON_parse data.

Lemma filePromise_Return path fields :
  readOne path = Return fields ->
  filePromise readFileSync JSON_parse path = Resolved fields.
Proof.
  unfold readOne, filePromise. destruct (readFileSync path); cbn [bind];
    [|discriminate].
  now intros ->.
Qed.

Lemma filePromise_Throw path e :
  readOne path = Throw e ->
  filePromise readFileSync JSON_parse path = Rejected e \/
  filePromise readFileSync JSON_parse path = Uncaught e.
Proof.
  unfold readOne, filePromise. destruct (readFileSync path); cbn [bind].
  - intros ->. now right.
  - intros [= ->]. now left.
Qed.

Lemma mapM_Return paths : forall fs,
  mapM readOne paths = Return fs ->
  map (filePromise readFileSync JSON_parse) paths = map (@Resolved record) fs.
Proof.
  induction paths as [|path rest IH]; intros fs; cbn [mapM].
  - now intros [= <-].
  - destruct (readOne path) as [fields|] eqn:H1; cbn [bind]; [|discriminate].
    destruct (mapM readOne rest) as [more|]; cbn [bind]; [|discriminate].
    intros [= <-]. cbn [map]. now rewrite (filePromise_Return _ H1), (IH more).
Qed.

Lemma mapM_Throw paths : forall e,
  mapM readOne paths = Throw e ->
  exists j e',
    nth_error (map (filePromise readFileSync JSON_parse) paths) j
      = Some (Rejected e') \/
    nth_error (map (filePromise readFileSync JSON_parse) paths) j
      = Some (Uncaught e').
Proof.
  induction paths as [|path rest IH]; intros e; cbn [mapM]; [discriminate|].
  destruct (readOne path) as [fields|e1] eqn:H1; cbn [bind].
  - destruct (mapM readOne rest) as [more|e2]; cbn [bind]; [discriminate|].
    intros _. destruct (IH e2 eq_refl) as [j [e' He']].
    exists (S j), e'. exact He'.
  - intros _. exists 0, e1. cbn [map nth_error].
    destruct (filePromise_Throw _ H1) as [-> | ->]; auto.
Qed.

Lemma mapM_length paths fs :
  mapM readOne paths = Return fs -> List.length fs = List.length paths.
Proof.
  revert fs. induction paths as [|path rest IH]; intros fs; cbn [mapM].
  - now intros [= <-].
  - destruct (readOne path); cbn [bind]; [|discriminate].
    destruct (mapM readOne rest) as [more|]; cbn [bind]; [|discriminate].
    intros [= <-]. simpl. now rewrite (IH more).
Qed.

(** [Promise.all] over the file promises gives what reading the files one
    after the other gives. *)
Lemma Promise_all_files completion paths fs :
  Permutation completion (seq 0 (List.length paths)) ->
  Promise_all completion (map (filePromise readFileSync JSON_parse) paths)
    = Resolved fs
  <-> mapM readOne paths = Return fs.
Proof.
  intros Hperm. destruct (mapM readOne paths) as [rs|e] eqn:Hsync.
  - rewrite (mapM_Return _ Hsync), Promise_all_fulfilled.
    + split; intros [= ->]; reflexivity.
    + now rewrite (mapM_length _ Hsync).
  - split; [|discriminate]. intros Hall. exfalso.
    destruct (mapM_Throw _ Hsync) as [j [e' He']].
    refine (@Promise_all_failed record
              (map (filePromise readFileSync JSON_parse) paths)
              completion j e' _ He' fs Hall).
    now rewrite length_map.
Qed.

Lemma readInFiles_sync completion this merged :
  Permutation completion (seq 0 (List.length (files this))) ->
  readInFiles readFileSync JSON_parse completion this = Resolved merged
  <-> readInFilesSync readFileSync JSON_parse this = Return merged.
Proof.
  intros Hperm. unfold readInFiles, readInFilesSync.
  fold readOne.
  pose proof (fun fs => @Promise_all_files completion (files this) fs Hperm)
    as Hall.
  destruct (mapM readOne (files this)) as [rs|e].
  - rewrite (proj2 (Hall rs) eq_refl). cbn [await bind].
    split; intros [= ->]; reflexivity.
  - cbn [bind]. split; [|discriminate].
    destruct (Promise_all completion _) as [fs| | |]; cbn [await];
      try discriminate.
    pose proof (proj1 (Hall fs) eq_refl). discriminate.
Qed.

Lemma getInputAsync_sync completion this input :
  Permutation completion (seq 0 (List.length (files this))) ->
  getInputAsync readFileSync JSON_parse env completion this = Resolved input
  <-> getInput readFileSync JSON_parse env this = Return input.
Proof.
  intros Hperm. unfold getInputAsync, getInput.
  pose proof (fun m => @readInFiles_sync completion this m Hperm) as Hfiles.
  destruct (readInFilesSync readFileSync JSON_parse this) as [fromFiles|e].
  - rewrite (proj2 (Hfiles fromFiles) eq_refl). cbn [await bind].
    destruct (readInEnv env this); cbn [bind].
    + split; intros [= ->]; reflexivity.
    + split; discriminate.
  - cbn [bind]. split; [|discriminate].
    destruct (readInFiles _ _ completion this) as [m| | |]; cbn [await];
      try discriminate.
    pose proof (proj1 (Hfiles m) eq_refl). discriminate.
Qed.

(** C8.  Whatever the order in which the reads complete, the asynchronous
    finalize merges the decoded files in the order they were registered: it
    produces a merged input exactly when the synchronous finalize does, and
    then the same one. *)
Theorem async_merges_in_registration_order
    (completion : list nat) (this : Config) :
  Permutation completion (seq 0 (List.length (files this))) ->
  (forall fs,
     Promise_all completion
       (map (filePromise readFileSync JSON_parse) (files this)) = Resolved fs
     <-> mapM (fun path => data <- readFileSync path ;;
                           parseFile JSON_parse data) (files this)
         = Return fs) /\
  (forall merged,
     readInFiles readFileSync JSON_parse completion this = Resolved merged
     <-> readInFilesSync readFileSync JSON_parse this = Return merged) /\
  (forall input,
     getInputAsync readFileSync JSON_parse env completion this = Resolved input
     <-> getInput readFileSync JSON_parse env this = Return input).
Proof.
  intros Hperm. split; [|split].
  - intros fs. now apply Promise_all_files.
  - intros merged. now apply readInFiles_sync.
  - intros input. now apply getInputAsync_sync.
Qed.


Lemma getInput_Return this input :
  getInput readFileSync JSON_parse env this = Return input ->
  exists fromFiles fromEnv,
    readInFilesSync readFileSync JSON_parse this = Return fromFiles /\
    readInEnv env this = Return fromEnv /\
    input = deepMerge [readInValues this; fromFiles; fromEnv].
Proof.
  unfold getInput.
  destruct (readInFilesSync readFileSync JSON_parse this) as [fromFiles|];
    cbn [bind]; [|discriminate].
  destruct (readInEnv env this) as [fromEnv|]; cbn [bind]; [|discriminate].
  intros [= <-]. now exists fromFiles, fromEnv.
Qed.



End LoaderFacts.

(* ------------------------------------------------------------------------- *)
(** ** The claims at the inputs of the tests *)


(** Two files, the second one read first. *)
Lemma async_merges_in_registration_order_witness :
  getInputAsync twoFiles decoded emptyEnv [1; 0]
    (Methods.readFile ["one.json"; "two.json"] (newConfig BasicConfig)) =
  Resolved [("n", VNum 2);
            ("object", VRec [("a", VStr "a"); ("c", VStr "c")])].
Proof.
  apply (proj2 (proj2 (@async_merges_in_registration_order
           value twoFiles decoded emptyEnv [1; 0]
           (Methods.readFile ["one.json"; "two.json"] (newConfig BasicConfig))
           (perm_swap 0 1 [])))).
  reflexivity.
Defined.




(* ------------------------------------------------------------------------- *)
(** ** More about deep merge *)





















(** X7.  Grouping to the right is another matter: merging [B] and [C] first
    and the result over [A] is not always [deepMerge(A, B, C)], even for
    records with distinct keys.  [{k: {x: 1}}], [{k: 5}], [{k: {y: 2}}]
    give [{k: {y: 2}}] from the left and [{k: {x: 1, y: 2}}] from the
    right. *)
Theorem deepMerge_not_right_associative :
  ~ (forall A B C : record,
       wfV (VRec A) -> wfV (VRec B) -> wfV (VRec C) ->
       deepMerge [A; deepMerge [B; C]] = deepMerge [A; B; C]).
Proof.
  intros H.
  specialize (H [("k", VRec [("x", VNum 1)])] [("k", VNum 5)]
                [("k", VRec [("y", VNum 2)])]).
  assert (E : deepMerge [ [("k", VRec [("x", VNum 1)])];
                          deepMerge [ [("k", VNum 5)];
                                      [("k", VRec [("y", VNum 2)])] ] ] =
              deepMerge [ [("k", VRec [("x", VNum 1)])]; [("k", VNum 5)];
                          [("k", VRec [("y", VNum 2)])] ]).
  { apply H; cbn; repeat split; distinct_keys. }
  vm_compute in E. discriminate.
Qed.

Lemma deepMerge_drop_empty (objects more : list record) :
  deepMerge (objects ++ [] :: more) = deepMerge (objects ++ more).
Proof.
  rewrite !deepMerge_eq. unfold mergeAll. now rewrite !fold_left_app.
Qed.

(** X8.  An empty record anywhere in the list changes nothing. *)
Theorem deepMerge_skips_empty (objects more : list record) :
  deepMerge (objects ++ [] :: more) = deepMerge (objects ++ more).
Proof. apply deepMerge_drop_empty. Qed.



(* ------------------------------------------------------------------------- *)
(** ** More about the resolver *)

Lemma getV_app p : forall v s,
  getV v (p ++ s) =
  match getV v p with
  | Some w => getV w s
  | None => None
  end.
Proof.
  induction p as [|k rest IH]; intros v s; [reflexivity|].
  cbn [app getV]. destruct v; try reflexivity.
  destruct (lookup k fields); [apply IH | reflexivity].
Qed.

Lemma prefix_dec (p q : list string) : {prefix p q} + {~ prefix p q}.
Proof.
  revert q. induction p as [|k p IH]; intros q.
  - left. apply prefix_nil.
  - destruct q as [|k' q].
    + right. intros [s Hs]. discriminate.
    + destruct (string_dec k k') as [<-|Hne].
      * destruct (IH q) as [Hp|Hn].
        -- left. now apply prefix_cons.
        -- right. intros [s Hs]. injection Hs as Hs. apply Hn. now exists s.
      * right. intros [s Hs]. injection Hs as Hs _. congruence.
Qed.

(** What holds a value after a write held one before, or lies on the way
    to the path written. *)
Lemma writePath_only p v input output q w :
  writePath p v input = Return output ->
  q <> [] ->
  getPath output q = Some w ->
  prefix q p \/ (exists w', getPath input q = Some w').
Proof.
  intros Hw Hq Hget.
  destruct (prefix_dec q p) as [Hqp|Hnqp]; [now left|]. right.
  destruct (prefix_dec p q) as [[s ->]|Hnpq].
  - destruct p as [|k p'].
    + injection Hw as <-. now exists w.
    + exfalso.
      assert (Hs : s <> []).
      { intros ->. apply Hnqp. exists []. now rewrite !app_nil_r. }
      unfold getPath in Hget. rewrite getV_app in Hget.
      change (getV (VRec output) (k :: p')) with (getPath output (k :: p'))
        in Hget.
      rewrite (@writePath_same (k :: p') v input output) in Hget;
        [|discriminate | exact Hw].
      destruct s; [congruence | discriminate].
  - exists w. rewrite <- Hget. symmetry.
    apply (@writePath_other p v q input output); [now split | exact Hw].
Qed.

Section Resolved.

Variable env : environment.
Variable all : list (list string).

Lemma readLeaves_only ps : forall input output,
  (forall p, In p ps -> In p all) ->
  (forall q w, q <> [] -> getPath input q = Some w -> justified env all q) ->
  foldM (fun input p => readLeaf env p input) ps input = Return output ->
  forall q w, q <> [] -> getPath output q = Some w -> justified env all q.
Proof.
  induction ps as [|p ps IH]; intros input output Hall Hin; cbn [foldM].
  - intros [= <-]. exact Hin.
  - destruct (readLeaf env p input) as [mid|] eqn:Hmid; cbn [bind];
      [|discriminate].
    apply IH.
    + intros p' Hp'. apply Hall. now right.
    + intros q w Hq Hget. unfold readLeaf, readEnvValue in Hmid.
      destruct (env (envVarName p)) as [v|] eqn:Hv.
      * destruct (@writePath_only p v input mid q w Hmid Hq Hget)
          as [Hpre|[w' Hw']].
        -- exists p. split; [apply Hall; now left|]. split; [exact Hpre|].
           congruence.
        -- exact (Hin q w' Hq Hw').
      * injection Hmid as <-. exact (Hin q w Hq Hget).
Qed.

End Resolved.

Lemma foldM_ext_in (A B : Type) (f g : B -> A -> result B) xs :
  (forall x b, In x xs -> f b x = g b x) ->
  forall b, foldM f xs b = foldM g xs b.
Proof.
  induction xs as [|x rest IH]; intros Hfg b; cbn [foldM]; auto.
  rewrite (Hfg x b (or_introl eq_refl)).
  destruct (g b x); cbn [bind]; auto.
  apply IH. intros x' b' Hin. apply Hfg. now right.
Qed.

Lemma foldM_Return (A B : Type) (f : B -> A -> result B) xs :
  (forall x b, In x xs -> f b x = Return b) ->
  forall b, foldM f xs b = Return b.
Proof.
  induction xs as [|x rest IH]; intros Hf b; cbn [foldM]; auto.
  rewrite (Hf x b (or_introl eq_refl)). cbn [bind].
  apply IH. intros x' b' Hin. apply Hf. now right.
Qed.

(** X10.  After the resolver's write at a path that is not empty, the
    record holds the string at that path. *)
Theorem writePath_then_getPath
    (path : list string) (v : string) (input output : record) :
  path <> [] ->
  writePath path v input = Return output ->
  getPath output path = Some (VStr v).
Proof. apply writePath_same. Qed.

Lemma writePath_then_getPath_witness :
  getPath [("object", VRec [("b", VStr "b"); ("a", VStr "new")])]
          ["object"; "a"] = Some (VStr "new").
Proof.
  apply (@writePath_then_getPath ["object"; "a"] "new"
           [("object", VRec [("b", VStr "b")])]).
  - discriminate.
  - reflexivity.
Defined.

(** X11.  A write leaves the value at every path that parts from the path
    written as it was: what other leaves got from the environment is
    kept. *)
Theorem writePath_keeps_other_paths
    (q : list string) (v : string) (p : list string)
    (input output : record) :
  apart p q ->
  writePath q v input = Return output ->
  getPath output p = getPath input p.
Proof. apply writePath_other. Qed.

Lemma writePath_keeps_other_paths_witness :
  getPath [("object", VRec [("b", VStr "b"); ("a", VStr "new")])]
          ["object"; "b"] =
  getPath [("object", VRec [("b", VStr "b")])] ["object"; "b"].
Proof.
  apply (@writePath_keeps_other_paths ["object"; "a"] "new" ["object"; "b"]).
  - split; intros [s Hs]; discriminate.
  - reflexivity.
Defined.

(** X12.  With distinct keys in every shape of the schema, the resolver
    returns for every environment: the [TypeError] of a write through a
    string is never met. *)
Theorem readInEnv_never_throws (env : environment) (this : Config) :
  wfSchema (schema this) ->
  isZodObject (schema this) = true ->
  exists output, readInEnv env this = Return output /\ wfR output.
Proof.
  intros Hwf Hobj. destruct (readInEnv_total env this Hwf Hobj) as [output H].
  exists output. split; [exact H|]. exact (readInEnv_wfR _ _ H).
Qed.

Lemma readInEnv_never_throws_witness :
  exists output,
    readInEnv (setEnv "FOO_BAR" "baz" emptyEnv)
              (Methods.readEnv (newConfig ConflictConfig)) = Return output /\
    wfR output.
Proof.
  apply readInEnv_never_throws.
  - cbn. repeat split; distinct_keys.
  - reflexivity.
Defined.

(** X13.  The resolver makes up nothing: whatever holds a value in its
    output lies on the way to a leaf path of the schema whose variable is
    set. *)
Theorem readInEnv_only_schema_paths
    (env : environment) (this : Config) (output : record)
    (q : list string) (w : value) :
  readInEnv env this = Return output ->
  q <> [] ->
  getPath output q = Some w ->
  exists p,
    In p (leafPaths [] (schema this)) /\ prefix q p /\
    env (envVarName p) <> None.
Proof.
  unfold readInEnv. destruct (negb (readFromEnv this)).
  - intros [= <-] Hq Hget. destruct q; [congruence | discriminate].
  - rewrite readEnv_leafPaths. intros Hrun Hq Hget.
    apply (@readLeaves_only env (leafPaths [] (schema this))
             (leafPaths [] (schema this)) [] output) with (w := w); auto.
    intros q' w' Hq' Hget'. destruct q'; [congruence | discriminate].
Qed.

Lemma readInEnv_only_schema_paths_witness :
  exists p,
    In p (leafPaths [] BasicConfig) /\ prefix ["object"] p /\
    setEnv "OBJECT_A" "" emptyEnv (envVarName p) <> None.
Proof.
  apply (@readInEnv_only_schema_paths (setEnv "OBJECT_A" "" emptyEnv)
           (Methods.readEnv (newConfig BasicConfig))
           [("object", VRec [("a", VStr "")])] ["object"]
           (VRec [("a", VStr "")])).
  - reflexivity.
  - discriminate.
  - reflexivity.
Defined.

(** X14.  The resolver reads no variable but those named after the leaf
    paths of the schema: two environments that agree on these give the same
    result.  When none of them is set the result is the empty record. *)
Theorem readInEnv_reads_leaf_variables_only
    (env env' : environment) (this : Config) :
  (forall p, In p (leafPaths [] (schema this)) ->
     env (envVarName p) = env' (envVarName p)) ->
  readInEnv env this = readInEnv env' this /\
  ((forall p, In p (leafPaths [] (schema this)) ->
      env (envVarName p) = None) ->
   readInEnv env this = Return []).
Proof.
  intros Hagree. unfold readInEnv.
  destruct (negb (readFromEnv this)); [now split|].
  rewrite !readEnv_leafPaths. split.
  - apply foldM_ext_in. intros p input Hin.
    unfold readLeaf, readEnvValue. now rewrite (Hagree p Hin).
  - intros Hnone. apply foldM_Return. intros p input Hin.
    unfold readLeaf, readEnvValue. now rewrite (Hnone p Hin).
Qed.

Lemma readInEnv_reads_leaf_variables_only_witness :
  readInEnv (setEnv "HOME" "/root" emptyEnv)
            (Methods.readEnv (newConfig BasicConfig)) =
  readInEnv emptyEnv (Methods.readEnv (newConfig BasicConfig)).
Proof.
  apply readInEnv_reads_leaf_variables_only.
  intros p Hp. cbn in Hp.
  repeat (destruct Hp as [<-|Hp]; [reflexivity|]). destruct Hp.
Defined.

(* ------------------------------------------------------------------------- *)
(** ** More about the names *)

Lemma append_assoc (s t u : string) :
  ((s ++ t) ++ u)%string = (s ++ (t ++ u))%string.
Proof. induction s as [|c s IH]; simpl; [reflexivity | now rewrite IH]. Qed.

Lemma toUpperCase_append (s t : string) :
  toUpperCase (s ++ t) = (toUpperCase s ++ toUpperCase t)%string.
Proof. induction s as [|c s IH]; simpl; [reflexivity | now rewrite IH]. Qed.

Lemma upper_idempotent (c : ascii) : upper (upper c) = upper c.
Proof.
  unfold upper.
  destruct (Nat.leb 97 (nat_of_ascii c) && Nat.leb (nat_of_ascii c) 122)%bool
    eqn:E.
  - apply andb_true_iff in E. destruct E as [E1 E2].
    apply Nat.leb_le in E1, E2.
    rewrite nat_ascii_embedding by lia.
    replace (Nat.leb 97 (nat_of_ascii c - 32)) with false;
      [reflexivity | symmetry; apply Nat.leb_gt; lia].
  - now rewrite E.
Qed.

Lemma toUpperCase_idempotent (s : string) :
  toUpperCase (toUpperCase s) = toUpperCase s.
Proof.
  induction s as [|c s IH]; simpl; [reflexivity|].
  now rewrite upper_idempotent, IH.
Qed.

Lemma concat_cons2 sep (x y : string) l :
  String.concat sep (x :: y :: l) =
  (x ++ sep ++ String.concat sep (y :: l))%string.
Proof. reflexivity. Qed.

Lemma envVarName_underscore_here a b rest :
  envVarName ((a ++ "_" ++ b)%string :: rest) = envVarName (a :: b :: rest).
Proof.
  unfold envVarName. cbn [map]. rewrite !toUpperCase_append.
  change (toUpperCase "_") with "_".
  destruct rest as [|c rest].
  - cbn [map]. rewrite concat_cons2. reflexivity.
  - cbn [map]. rewrite !concat_cons2. now rewrite !append_assoc.
Qed.

(** X15.  A segment written [a_b] and the two segments [a], [b] give the
    same variable name, anywhere in a path: a flat field and a nested one
    spelled this way always share their variable.  The name does not see
    the case of the letters either: a path and its upper-cased spelling
    give the same name. *)
Theorem envVarName_collisions (before : list string) (a b : string)
    (after : list string) :
  envVarName (before ++ (a ++ "_" ++ b)%string :: after) =
  envVarName (before ++ a :: b :: after) /\
  envVarName (map toUpperCase before) = envVarName before.
Proof.
  split.
  - induction before as [|k before IH].
    + apply envVarName_underscore_here.
    + destruct before as [|k2 before].
      * cbn [app]. rewrite !envVarName_cons. f_equal. f_equal.
        apply envVarName_underscore_here.
      * cbn [app] in *. rewrite !envVarName_cons. now rewrite IH.
  - unfold envVarName. f_equal. rewrite map_map.
    apply map_ext. apply toUpperCase_idempotent.
Qed.

(* ------------------------------------------------------------------------- *)
(** ** More about the collector and the loader *)

Lemma mapM_first_Throw (A B : Type) (f : A -> result B) before x after e :
  (forall a, In a before -> exists b, f a = Return b) ->
  f x = Throw e ->
  mapM f (before ++ x :: after) = Throw e.
Proof.
  intros Hbefore Hx. induction before as [|a before IH]; cbn [app mapM].
  - now rewrite Hx.
  - destruct (Hbefore a (or_introl eq_refl)) as [b ->]. cbn [bind].
    rewrite IH; [reflexivity|]. intros a' Hin. apply Hbefore. now right.
Qed.

Lemma mapM_In_Throw (A B : Type) (f : A -> result B) xs x e :
  In x xs -> f x = Throw e -> forall ys, mapM f xs <> Return ys.
Proof.
  intros Hin Hx. induction xs as [|a rest IH]; intros ys; [destruct Hin|].
  cbn [mapM]. destruct Hin as [->|Hin].
  - rewrite Hx. discriminate.
  - destruct (f a); cbn [bind]; [|discriminate].
    destruct (mapM f rest) as [more|] eqn:Hrest; cbn [bind]; [|discriminate].
    exfalso. exact (IH Hin more eq_refl).
Qed.

(** The reads completed so far were all fulfilled; then one is rejected. *)
Lemma settle_first_Rejected (A : Type) (tasks : list (promise A))
    before j after e :
  (forall i, In i before -> exists a, nth_error tasks i = Some (Resolved a)) ->
  nth_error tasks j = Some (Rejected e) ->
  forall slots, settle tasks (before ++ j :: after) slots = Rejected e.
Proof.
  intros Hbefore Hj. induction before as [|i before IH]; intros slots;
    cbn [app settle].
  - now rewrite Hj.
  - destruct (Hbefore i (or_introl eq_refl)) as [a ->].
    apply IH. intros i' Hin. apply Hbefore. now right.
Qed.

(** No read error, and a decode that fails among the reads that complete. *)
Lemma settle_Uncaught (A : Type) (tasks : list (promise A)) completion :
  (forall t, In t tasks ->
     (exists a, t = Resolved a) \/ (exists e, t = Uncaught e)) ->
  (exists j e, In j completion /\ nth_error tasks j = Some (Uncaught e)) ->
  forall slots, exists e, settle tasks completion slots = Uncaught e.
Proof.
  intros Hkind. induction completion as [|i later IH];
    intros [j [e [Hin Hj]]] slots.
  - destruct Hin.
  - cbn [settle]. destruct (nth_error tasks i) as [t|] eqn:Hi.
    + destruct (Hkind t (nth_error_In _ _ Hi)) as [[a ->]|[e' ->]].
      * apply IH. exists j, e. split; [|exact Hj].
        destruct Hin as [<-|Hin]; [congruence | exact Hin].
      * now exists e'.
    + apply IH. exists j, e. split; [|exact Hj].
      destruct Hin as [<-|Hin]; [congruence | exact Hin].
Qed.

(** X16.  After any chain of calls the collector holds the paths of the
    [readFile] calls in call order, the records of the [readValue] calls in
    call order, and the flag is set when [readEnv] was called at least
    once; a call with several arguments is the same as one call for
    each. *)
Theorem build_collects (schema0 : ZodType) (calls : list call) :
  schema (build schema0 calls) = schema0 /\
  files (build schema0 calls) = filesOf calls /\
  values (build schema0 calls) = valuesOf calls /\
  readFromEnv (build schema0 calls) = envOf calls /\
  (forall vs ws this,
     Methods.readValue ws (Methods.readValue vs this) =
     Methods.readValue (vs ++ ws) this) /\
  (forall ps qs this,
     Methods.readFile qs (Methods.readFile ps this) =
     Methods.readFile (ps ++ qs) this) /\
  (forall this, Methods.readEnv (Methods.readEnv this) = Methods.readEnv this).
Proof.
  rewrite build_tiers. repeat split.
  - intros vs ws this. unfold Methods.readValue. cbn. now rewrite app_assoc.
  - intros ps qs this. unfold Methods.readFile. cbn. now rewrite app_assoc.
Qed.

Section LoaderExtras.

Variable Buffer : Type.
Variable readFileSync : string -> result Buffer.
Variable JSON_parse : Buffer -> result value.
Variable env : environment.
Variable schemaSafeParse : ZodType -> record -> SafeParseReturnType.

(** X17.  The synchronous finalize stops at the first registered file that
    cannot be read or decoded: [getInput], [parse] and [safeParse] throw the
    error of that file, whatever the later files, the environment and the
    validator are; no partial merge comes out. *)
Theorem sync_finalize_throws_first_failure
    (this : Config) (before : list string) (path : string)
    (after : list string) (e : error) :
  files this = before ++ path :: after ->
  (forall p, In p before ->
     exists fields,
       (data <- readFileSync p ;; parseFile JSON_parse data) = Return fields) ->
  (data <- readFileSync path ;; parseFile JSON_parse data) = Throw e ->
  readInFilesSync readFileSync JSON_parse this = Throw e /\
  getInput readFileSync JSON_parse env this = Throw e /\
  parse readFileSync JSON_parse env schemaSafeParse this = Throw e /\
  safeParse readFileSync JSON_parse env schemaSafeParse this = Throw e.
Proof.
  intros Hfiles Hbefore Hpath.
  assert (E : readInFilesSync readFileSync JSON_parse this = Throw e).
  { unfold readInFilesSync. rewrite Hfiles.
    now rewrite (@mapM_first_Throw _ _
                   (fun p => data <- readFileSync p ;; parseFile JSON_parse data)
                   before path after e Hbefore Hpath). }
  assert (G : getInput readFileSync JSON_parse env this = Throw e).
  { unfold getInput. now rewrite E. }
  unfold parse, safeParse. rewrite G. auto.
Qed.


(** X19.  In the asynchronous finalize the first read to fail, in the
    order of completion, decides: when the reads that completed before it
    were read and decoded and this one cannot be read, the finalize rejects
    with its error, wherever the file stands in the list. *)
Theorem async_finalize_rejects_first_completed_failure
    (this : Config) (before : list nat) (j : nat) (after : list nat)
    (path : string) (e : error) :
  (forall i, In i before ->
     exists p data fields,
       nth_error (files this) i = Some p /\
       readFileSync p = Return data /\
       parseFile JSON_parse data = Return fields) ->
  nth_error (files this) j = Some path ->
  readFileSync path = Throw e ->
  readInFiles readFileSync JSON_parse (before ++ j :: after) this = Rejected e /\
  getInputAsync readFileSync JSON_parse env (before ++ j :: after) this
    = Rejected e /\
  safeParseAsync readFileSync JSON_parse env schemaSafeParse
    (before ++ j :: after) this = Rejected e.
Proof.
  intros Hbefore Hj He.
  assert (E : readInFiles readFileSync JSON_parse (before ++ j :: after) this
              = Rejected e).
  { unfold readInFiles, Promise_all.
    rewrite (@settle_first_Rejected record
               (map (filePromise readFileSync JSON_parse) (files this))
               before j after e); [reflexivity | |].
    - intros i Hi. destruct (Hbefore i Hi) as [p [data [fields [Hp [Hd Hf]]]]].
      exists fields. rewrite nth_error_map, Hp. cbn [option_map].
      unfold filePromise. now rewrite Hd, Hf.
    - rewrite nth_error_map, Hj. cbn [option_map].
      unfold filePromise. now rewrite He. }
  assert (G : getInputAsync readFileSync JSON_parse env (before ++ j :: after)
                this = Rejected e).
  { unfold getInputAsync. now rewrite E. }
  unfold safeParseAsync. rewrite G. auto.
Qed.

(** X20.  A file that is read but cannot be decoded is another matter in
    the asynchronous finalize: [parseFile] runs in the callback of
    [readFile], so when every file can be read and one of them cannot be
    decoded, the promise is neither fulfilled nor rejected, the exception
    is uncaught, for every order of completion; the synchronous finalize
    throws. *)
Theorem async_decode_failure_is_uncaught
    (this : Config) (completion : list nat) (path : string)
    (data : Buffer) (e : error) :
  Permutation completion (seq 0 (List.length (files this))) ->
  (forall p, In p (files this) -> exists d, readFileSync p = Return d) ->
  In path (files this) ->
  readFileSync path = Return data ->
  parseFile JSON_parse data = Throw e ->
  (exists e', getInputAsync readFileSync JSON_parse env completion this
              = Uncaught e') /\
  (exists e', getInput readFileSync JSON_parse env this = Throw e').
Proof.
  intros Hperm Hread Hin Hdata Hparse. split.
  - assert (Hkind : forall t,
      In t (map (filePromise readFileSync JSON_parse) (files this)) ->
      (exists a, t = Resolved a) \/ (exists e', t = Uncaught e')).
    { intros t Ht. apply in_map_iff in Ht. destruct Ht as [p [<- Hp]].
      destruct (Hread p Hp) as [d Hd]. unfold filePromise. rewrite Hd.
      destruct (parseFile JSON_parse d); eauto. }
    destruct (In_nth_error _ _ Hin) as [j Hj].
    destruct (@settle_Uncaught record
                (map (filePromise readFileSync JSON_parse) (files this))
                completion Hkind) with
      (slots := repeat (@None record)
                  (List.length
                     (map (filePromise readFileSync JSON_parse) (files this))))
      as [e' He'].
    { exists j, e. split.
      - apply (Permutation_in j (Permutation_sym Hperm)).
        apply in_seq. split; [lia|]. simpl. apply nth_error_Some. congruence.
      - rewrite nth_error_map, Hj. cbn [option_map].
        unfold filePromise. now rewrite Hdata, Hparse. }
    exists e'. unfold getInputAsync, readInFiles, Promise_all.
    now rewrite He'.
  - destruct (getInput readFileSync JSON_parse env this) as [input|e'] eqn:G;
      [|now exists e'].
    exfalso. apply getInput_Return in G.
    destruct G as [fromFiles [fromEnv [Hfiles _]]].
    unfold readInFilesSync in Hfiles.
    destruct (mapM _ (files this)) as [fs|] eqn:Hm; [|discriminate].
    refine (@mapM_In_Throw _ _ _ (files this) path e Hin _ fs Hm).
    now rewrite Hdata.
Qed.

End LoaderExtras.

(** Three files, the one in the middle missing. *)
Lemma sync_finalize_throws_first_failure_witness :
  safeParse twoFiles decoded emptyEnv fooSafeParse
    (Methods.readFile ["one.json"; "missing.json"; "two.json"]
       (newConfig BasicConfig)) = Throw (ENOENT "missing.json").
Proof.
  apply (@sync_finalize_throws_first_failure value twoFiles decoded emptyEnv
           fooSafeParse
           (Methods.readFile ["one.json"; "missing.json"; "two.json"]
              (newConfig BasicConfig))
           ["one.json"] "missing.json" ["two.json"] (ENOENT "missing.json")).
  - reflexivity.
  - intros p [<-|[]]. now eexists.
  - reflexivity.
Defined.


(** The missing file is registered last and completes first. *)
Lemma async_finalize_rejects_first_completed_failure_witness :
  getInputAsync twoFiles decoded emptyEnv ([] ++ 1 :: [0])
    (Methods.readFile ["one.json"; "missing.json"] (newConfig BasicConfig)) =
  Rejected (ENOENT "missing.json").
Proof.
  apply (@async_finalize_rejects_first_completed_failure value twoFiles decoded
           emptyEnv fooSafeParse
           (Methods.readFile ["one.json"; "missing.json"] (newConfig BasicConfig))
           [] 1 [0] "missing.json" (ENOENT "missing.json")).
  - intros i [].
  - reflexivity.
  - reflexivity.
Defined.

(** A file that holds an array. *)
Lemma async_decode_failure_is_uncaught_witness :
  (exists e', getInputAsync threeFiles decoded emptyEnv [1; 0]
                (Methods.readFile ["list.json"; "one.json"]
                   (newConfig BasicConfig)) = Uncaught e') /\
  (exists e', getInput threeFiles decoded emptyEnv
                (Methods.readFile ["list.json"; "one.json"]
                   (newConfig BasicConfig)) = Throw e').
Proof.
  apply (@async_decode_failure_is_uncaught value threeFiles decoded emptyEnv
           (Methods.readFile ["list.json"; "one.json"] (newConfig BasicConfig))
           [1; 0] "list.json" (VArr [VNum 1])
           (ZodError [ {| code := "invalid_type"; issuePath := [];
                          message := "Expected object" |} ])).
  - apply perm_swap.
  - intros p [<-|[<-|[]]]; now eexists.
  - now left.
  - reflexivity.
  - reflexivity.
Defined.

(* ------------------------------------------------------------------------- *)
(** ** Files with their own parser *)

Lemma mapM_map (A B C : Type) (g : A -> B) (f : B -> result C) xs :
  mapM f (map g xs) = mapM (fun x => f (g x)) xs.
Proof.
  induction xs as [|x rest IH]; cbn [map mapM]; [reflexivity|].
  now rewrite IH.
Qed.

Lemma mapM_ext (A B : Type) (f g : A -> result B) xs :
  (forall x, f x = g x) -> mapM f xs = mapM g xs.
Proof.
  intros Hfg. induction xs as [|x rest IH]; cbn [mapM]; [reflexivity|].
  now rewrite Hfg, IH.
Qed.

Section FileEntryFacts.

Variable Buffer : Type.
Variable readFileSync : string -> result Buffer.
Variable JSON_parse : Buffer -> result value.

(** X21.  Paths given to the later [readFile] as plain strings are read as
    the legacy loader reads them: the record that [parseFile] returns passes
    the second [passthrough] check unchanged, and an error is the same
    error. *)
Theorem readFile_strings_as_before (schema0 : ZodType) (paths : list string) :
  FileEntries.readInFilesSync readFileSync
    (FileEntries.readFile JSON_parse
       (map (@FileEntries.PathArg Buffer) paths)
       (FileEntries.newConfig Buffer schema0)) =
  readInFilesSync readFileSync JSON_parse
    (Methods.readFile paths (newConfig schema0)).
Proof.
  unfold FileEntries.readInFilesSync, readInFilesSync. cbn.
  rewrite map_map, mapM_map. f_equal.
  apply mapM_ext. intros path. unfold FileEntries.readEntry. cbn [fst snd].
  destruct (readFileSync path) as [data|]; cbn [bind]; [|reflexivity].
  unfold FileEntries.parseFile.
  destruct (parseFile JSON_parse data); reflexivity.
Qed.

(** X22.  What a file's own parser returns must be a record: when the
    entries before load and the parser of this one returns anything else
    (an array, a scalar, [null]), the loader throws a [ZodError] and gives
    no merge. *)
Theorem own_parser_must_return_a_record
    (this : FileEntries.Config Buffer)
    (before : list (FileEntries.FileEntry Buffer))
    (path : string) (parser : Buffer -> result value)
    (after : list (FileEntries.FileEntry Buffer))
    (data : Buffer) (v : value) :
  FileEntries.files this = before ++ (path, parser) :: after ->
  (forall entry, In entry before ->
     exists fields, FileEntries.readEntry readFileSync entry = Return fields) ->
  readFileSync path = Return data ->
  parser data = Return v ->
  isRecord v = false ->
  exists issues,
    FileEntries.readInFilesSync readFileSync this = Throw (ZodError issues).
Proof.
  intros Hfiles Hbefore Hdata Hv Hleaf.
  assert (E : exists issues,
    FileEntries.readEntry readFileSync (path, parser) = Throw (ZodError issues)).
  { unfold FileEntries.readEntry. cbn [fst snd]. rewrite Hdata. cbn [bind].
    rewrite Hv. cbn [bind]. destruct v; try discriminate; now eexists. }
  destruct E as [issues E]. exists issues.
  unfold FileEntries.readInFilesSync. rewrite Hfiles.
  pose proof (@mapM_first_Throw _ _ (FileEntries.readEntry readFileSync)
                before (path, parser) after (ZodError issues) Hbefore E) as M.
  unfold FileEntries.FileEntry in *. now rewrite M.
Qed.


End FileEntryFacts.

(** The file that holds an array, behind a parser that hands it on. *)
Lemma own_parser_must_return_a_record_witness :
  exists issues,
    FileEntries.readInFilesSync threeFiles
      (FileEntries.readFile decoded
         [FileEntries.PathArg value "one.json";
          FileEntries.EntryArg ("list.json", decoded)]
         (FileEntries.newConfig value BasicConfig)) = Throw (ZodError issues).
Proof.
  apply (@own_parser_must_return_a_record value threeFiles
           (FileEntries.readFile decoded
              [FileEntries.PathArg value "one.json";
               FileEntries.EntryArg ("list.json", decoded)]
              (FileEntries.newConfig value BasicConfig))
           [("one.json", FileEntries.parseFile decoded)]
           "list.json" decoded [] (VArr [VNum 1]) (VArr [VNum 1])).
  - reflexivity.
  - intros entry [<-|[]]. now eexists.
  - reflexivity.
  - reflexivity.
  - reflexivity.
Defined.

